(** * lib/utils.py: a shallow embedding and its verified properties

    The development follows the Python module function by function:
    [get_folder], [get_image_paths], [set_system_verbosity],
    [add_alpha_channel], [rotate_landmarks] and [camel_case_split].
    Python objects that the code mutates live in an
    explicit store ([heap]); exceptions are the [Raises] case of [outcome].

    Conventions for the numeric code:
    - Python integers are [Z]; building an [int32] array from an integer
      outside the 32-bit range raises OverflowError ([np_array_int32]),
      and arithmetic on [np.int32] scalars keeps the low 32 bits
      ([np_int32]);
    - the two OpenCV calls of [rotate_landmarks] are the methods of the
      class [OpenCV]: what holds for every instance holds for the
      library as it is built, whatever its floating-point arithmetic.
      The instance [exact_arithmetic] computes with exact rationals [Q],
      rounds to nearest, ties to even ([cvRound]), and casts a result
      outside the 32-bit range to the least integer ([saturate_cast]);
    - the operating-system calls of [get_folder] and [get_image_paths]
      are the methods of the class [FileSystem]; the instance on
      [filesystem] is a table from path strings to what lives there. *)

From Stdlib Require Import ZArith QArith Qround Lia Lqa List Ascii.
From Stdlib Require Import Sorting.Sorted Permutation.
From Stdlib Require Import Strings.Byte.
From Stdlib Require String.
From stdpp Require Import gmap strings list fin_maps.

Local Open Scope Z_scope.

(** ** Exceptions and results *)

Inductive exn : Set :=
| ValueError
| TypeError
| IndexError
| UnboundLocalError
| AssertionError
| FileExistsError
| FileNotFoundError
| NotADirectoryError
| OverflowError.

Inductive outcome (A : Type) : Type :=
| Returns (a : A)
| Raises (e : exn).

Arguments Returns {A} a.
Arguments Raises {A} e.

Definition outcome_bind {A B} (o : outcome A) (k : A → outcome B) : outcome B :=
  match o with
  | Returns a => k a
  | Raises e => Raises e
  end.

(** ** Machine integers and rounding *)

Definition int32_min : Z := - 2 ^ 31.
Definition int32_max : Z := 2 ^ 31 - 1.

Definition fits_int32 (z : Z) : Prop := int32_min ≤ z ≤ int32_max.

(** Storing a Python integer into an [int32] array, and arithmetic on
    [np.int32] scalars, keep the low 32 bits. *)
Definition np_int32 (z : Z) : Z := (z + 2 ^ 31) mod 2 ^ 32 - 2 ^ 31.

(** The boolean form of [fits_int32], for checks by computation. *)
Definition fits_int32b (z : Z) : bool := (int32_min <=? z) && (z <=? int32_max).

(** [cv::saturate_cast<int>] of a rounded double: a value that has no
    32-bit representation becomes the least integer. *)
Definition saturate_cast (z : Z) : Z := if fits_int32b z then z else int32_min.

(** [cvRound]: to nearest, ties to the even neighbour. *)
Definition cvRound (q : Q) : Z :=
  let f := Qfloor q in
  match Qcompare (q - inject_Z f) (1 # 2) with
  | Lt => f
  | Gt => f + 1
  | Eq => if Z.even f then f else f + 1
  end.

(** ** The OpenCV calls of [rotate_landmarks] *)

(** A 2x3 affine matrix, row major. *)
Record matrix : Set := Matrix {
  m00 : Q; m01 : Q; m02 : Q;
  m10 : Q; m11 : Q; m12 : Q
}.

Definition Qis_zero (q : Q) : bool := Z.eqb (Qnum q) 0.

(** [cv2.invertAffineTransform]: the reciprocal of the determinant, or 0
    for a singular matrix, then the adjugate and the new translation. *)
Definition invertAffineTransform (M : matrix) : matrix :=
  let D := (m00 M * m11 M - m01 M * m10 M)%Q in
  let D := if Qis_zero D then 0%Q else (1 / D)%Q in
  let A11 := (m11 M * D)%Q in
  let A22 := (m00 M * D)%Q in
  let A12 := (- m01 M * D)%Q in
  let A21 := (- m10 M * D)%Q in
  let b1 := (- A11 * m02 M - A12 * m12 M)%Q in
  let b2 := (- A21 * m02 M - A22 * m12 M)%Q in
  Matrix A11 A12 b1 A21 A22 b2.

Definition point : Set := (Z * Z)%type.

Definition transform_point (M : matrix) (p : point) : point :=
  let v0 := inject_Z (fst p) in
  let v1 := inject_Z (snd p) in
  (cvRound (m00 M * v0 + m01 M * v1 + m02 M)%Q,
   cvRound (m10 M * v0 + m11 M * v1 + m12 M)%Q).

(** The two OpenCV calls.  [cv_invertAffineTransform] is
    [cv2.invertAffineTransform]; [cv_transform_point M p] is the pair of
    32-bit integers that [cv2.transform] stores for the point [p] of an
    [int32] array. *)
Class OpenCV : Type := {
  cv_invertAffineTransform : matrix → matrix;
  cv_transform_point : matrix → point → point
}.

(** The calls in exact arithmetic: the formulas of the library on
    rationals, rounded once, and a result outside the 32-bit range cast
    to the least integer.  Floating-point arithmetic gives the same
    where its operations are exact, as on whole numbers of moderate
    size, and differs from it by the rounding of its operations
    elsewhere. *)
#[global] Instance exact_arithmetic : OpenCV := {|
  cv_invertAffineTransform := invertAffineTransform;
  cv_transform_point M p :=
    (saturate_cast (fst (transform_point M p)), saturate_cast (snd (transform_point M p)))
|}.

(** [cv2.transform] on a 1 x n array of two-channel integer points. *)
Definition cv2_transform `{OpenCV} (points : list point) (M : matrix) : list point :=
  map (cv_transform_point M) points.

(** ** NumPy arrays of points *)

(** All coordinates have a 32-bit representation. *)
Definition points_fit (pts : list point) : bool :=
  forallb (λ p, fits_int32b (fst p) && fits_int32b (snd p)) pts.

(** [np.array(item, np.int32)]: an integer outside the 32-bit range
    raises OverflowError.  (NumPy 2; NumPy 1 raises from 2^63 on and
    keeps the low 32 bits below.  Every statement that has the call
    return takes the coordinates within the range, where the versions
    agree.) *)
Definition np_array_int32 (item : list point) : outcome (list point) :=
  if points_fit item then Returns item else Raises OverflowError.

(** [.astype(np.int32)] on the result of [cv2.transform], which is an
    [int32] array already: the values stay. *)
Definition astype_int32 (pts : list point) : list point := pts.

(** The result of [squeeze] on a (1, n, 2) array: n rows of two columns,
    except that a single row collapses to a flat vector of two numbers. *)
Inductive ndarray : Set :=
| Arr1 (v : list Z)
| Arr2 (rows : list point).

Definition squeeze (pts : list point) : ndarray :=
  match pts with
  | [p] => Arr1 [fst p; snd p]
  | _ => Arr2 pts
  end.

(** [[pnt[k] for pnt in arr]]: indexing a scalar of a flat vector fails. *)
Definition column (k : nat) (arr : ndarray) : outcome (list Z) :=
  match arr with
  | Arr2 rows => Returns (map (λ p, if Nat.eqb k 0 then fst p else snd p) rows)
  | Arr1 [] => Returns []
  | Arr1 (_ :: _) => Raises IndexError
  end.

(** [[tuple(point) for point in arr.tolist()]]: [tuple] of a number fails. *)
Definition tuples_of (arr : ndarray) : outcome (list point) :=
  match arr with
  | Arr2 rows => Returns rows
  | Arr1 [] => Returns []
  | Arr1 (_ :: _) => Raises TypeError
  end.

(** Python [min] and [max] of a list. *)
Definition py_min (l : list Z) : outcome Z :=
  match l with
  | [] => Raises ValueError
  | z :: l' => Returns (fold_left Z.min l' z)
  end.

Definition py_max (l : list Z) : outcome Z :=
  match l with
  | [] => Raises ValueError
  | z :: l' => Returns (fold_left Z.max l' z)
  end.

(** [lst[i]] on a Python list. *)
Definition py_index {A} (l : list A) (i : nat) : outcome A :=
  match l !! i with
  | Some a => Returns a
  | None => Raises IndexError
  end.

(** ** Face records *)

(** [lib.faces_detect.DetectedFace]: the fields the function touches. *)
Record DetectedFace : Set := mkDetectedFace {
  face_x : Z;
  face_y : Z;
  face_w : Z;
  face_h : Z;
  face_r : Z;
  landmarksXY : list point
}.

(** An alignments dictionary: its integer entries by key, and the value
    under the key "landmarksXY" when that key is present. *)
Record alignment : Type := mkAlignment {
  fields : gmap string Z;
  landmarks_entry : option (list point)
}.

(** [dlib.rectangle]. *)
Record rectangle : Set := mkRectangle {
  left : Z;
  top : Z;
  right : Z;
  bottom : Z
}.

Inductive pyobj : Type :=
| ODetectedFace (f : DetectedFace)
| ODict (d : alignment)
| ORect (r : rectangle)
| OOther (type_name : string).

Definition loc : Set := positive.

Abbreviation heap := (gmap loc pyobj).

(** [face.get(key, 0)] *)
Definition dict_get (d : alignment) (key : string) : Z :=
  default 0 (fields d !! key).

(** [face[key] = v] for an integer entry. *)
Definition dict_set (key : string) (v : Z) (d : alignment) : alignment :=
  mkAlignment (<[key := v]> (fields d)) (landmarks_entry d).

Definition dict_set_landmarks (l : list point) (d : alignment) : alignment :=
  mkAlignment (fields d) (Some l).

Definition set_x (v : Z) (f : DetectedFace) : DetectedFace :=
  mkDetectedFace v (face_y f) (face_w f) (face_h f) (face_r f) (landmarksXY f).
Definition set_y (v : Z) (f : DetectedFace) : DetectedFace :=
  mkDetectedFace (face_x f) v (face_w f) (face_h f) (face_r f) (landmarksXY f).
Definition set_w (v : Z) (f : DetectedFace) : DetectedFace :=
  mkDetectedFace (face_x f) (face_y f) v (face_h f) (face_r f) (landmarksXY f).
Definition set_h (v : Z) (f : DetectedFace) : DetectedFace :=
  mkDetectedFace (face_x f) (face_y f) (face_w f) v (face_r f) (landmarksXY f).
Definition set_r (v : Z) (f : DetectedFace) : DetectedFace :=
  mkDetectedFace (face_x f) (face_y f) (face_w f) (face_h f) v (landmarksXY f).
Definition set_landmarksXY (l : list point) (f : DetectedFace) : DetectedFace :=
  mkDetectedFace (face_x f) (face_y f) (face_w f) (face_h f) (face_r f) l.

(** ** Computations over the store *)

Definition py (A : Type) : Type := heap → heap * outcome A.

Definition ret {A} (a : A) : py A := λ σ, (σ, Returns a).
Definition raise {A} (e : exn) : py A := λ σ, (σ, Raises e).
Definition lift {A} (o : outcome A) : py A := λ σ, (σ, o).

Definition bind {A B} (c : py A) (k : A → py B) : py B :=
  λ σ, match c σ with
       | (σ', Returns a) => k a σ'
       | (σ', Raises e) => (σ', Raises e)
       end.

#[global] Instance py_ret : MRet py := @ret.
#[global] Instance py_bind : MBind py := λ A B k c, bind c k.

(** The object a reference points to. *)
Definition deref (l : loc) : py (option pyobj) := λ σ, (σ, Returns (σ !! l)).

(** Assignment to attributes or items of the object at [l]. *)
Definition update (l : loc) (f : pyobj → pyobj) : py unit :=
  λ σ, (alter f l σ, Returns tt).

(** A newly constructed object. *)
Definition alloc (o : pyobj) : py loc :=
  λ σ, let l := fresh (dom σ) in (<[l := o]> σ, Returns l).

(** Reading a local variable that may not have been assigned. *)
Definition read_local {A} (v : option A) : outcome A :=
  match v with
  | Some a => Returns a
  | None => Raises UnboundLocalError
  end.

Definition on_face (g : DetectedFace → DetectedFace) (o : pyobj) : pyobj :=
  match o with
  | ODetectedFace f => ODetectedFace (g f)
  | _ => o
  end.

Definition on_dict (g : alignment → alignment) (o : pyobj) : pyobj :=
  match o with
  | ODict d => ODict (g d)
  | _ => o
  end.

(** ** rotate_landmarks *)

(** The four corners, clockwise from the top left one. *)
Definition corners (x0 y0 x1 y1 : Z) : list point :=
  [(x0, y0); (x1, y0); (x1, y1); (x0, y1)].

(** Lines 126-151: the bounding box and the landmarks of a face record. *)
Definition face_geometry (o : option pyobj) : outcome (list point * list point) :=
  match o with
  | Some (ODetectedFace f) =>
      Returns (corners (face_x f) (face_y f)
                       (face_x f + face_w f) (face_y f + face_h f),
               landmarksXY f)
  | Some (ODict d) =>
      Returns (corners (dict_get d "x") (dict_get d "y")
                       (dict_get d "x" + dict_get d "w")
                       (dict_get d "y" + dict_get d "h"),
               default [] (landmarks_entry d))
  | Some (ORect r) =>
      Returns (corners (left r) (top r) (right r) (bottom r), [])
  | _ => Raises ValueError
  end.

(** Lines 157-165: the loop over the bounding box and the landmarks; an
    empty item is skipped. *)
Definition rotate_items `{OpenCV} (items : list (list point)) (inverse : matrix) :
    outcome (list ndarray) :=
  fold_left
    (λ acc item,
       outcome_bind acc (λ rotated,
         match item with
         | [] => Returns rotated
         | _ =>
             outcome_bind (np_array_int32 item) (λ points,
               let transformed := astype_int32 (cv2_transform points inverse) in
               Returns (rotated ++ [squeeze transformed]))
         end))
    items (Returns []).

(** The value bound to the local name [rotated_landmarks]. *)
Inductive traced : Type :=
| TracedPoints (l : list point)
| TracedRect (l : loc).

Definition rotate_landmarks `{OpenCV} (face : loc) (rotation_matrix : matrix) : py loc :=
  (o ← deref face;
   g ← lift (face_geometry o);
   let bounding_box := fst g in
   let landmarks := snd g in
   let rotation_matrix := cv_invertAffineTransform rotation_matrix in
   rotated ← lift (rotate_items [bounding_box; landmarks] rotation_matrix);
   box ← lift (py_index rotated 0);
   xs ← lift (column 0 box);
   ys ← lift (column 1 box);
   pt_x ← lift (py_min xs);
   pt_y ← lift (py_min ys);
   pt_x1 ← lift (py_max xs);
   pt_y1 ← lift (py_max ys);
   match o with
   | Some (ODetectedFace _) =>
       update face (on_face (set_x pt_x));;
       update face (on_face (set_y pt_y));;
       update face (on_face (set_w (np_int32 (pt_x1 - pt_x))));;
       update face (on_face (set_h (np_int32 (pt_y1 - pt_y))));;
       update face (on_face (set_r 0));;
       rotated_landmarks ←
         (if (1 <? length rotated)%nat then
            arr ← lift (py_index rotated 1);
            l ← lift (tuples_of arr);
            update face (on_face (set_landmarksXY l));;
            ret (Some (TracedPoints l))
          else ret None);
       _ ← lift (read_local rotated_landmarks);
       ret face
   | Some (ODict _) =>
       update face (on_dict (dict_set "x" pt_x));;
       update face (on_dict (dict_set "y" pt_y));;
       update face (on_dict (dict_set "w" (np_int32 (pt_x1 - pt_x))));;
       update face (on_dict (dict_set "h" (np_int32 (pt_y1 - pt_y))));;
       update face (on_dict (dict_set "r" 0));;
       rotated_landmarks ←
         (if (1 <? length rotated)%nat then
            arr ← lift (py_index rotated 1);
            l ← lift (tuples_of arr);
            update face (on_dict (dict_set_landmarks l));;
            ret (Some (TracedPoints l))
          else ret None);
       _ ← lift (read_local rotated_landmarks);
       ret face
   | _ =>
       new ← alloc (ORect (mkRectangle pt_x pt_y pt_x1 pt_y1));
       let rotated_landmarks := Some (TracedRect new) in
       let face := new in
       _ ← lift (read_local rotated_landmarks);
       ret face
   end).

(** ** Observations on face records *)

(** A bounding box as the face records describe it: origin, width, height. *)
Record Box : Set := mkBox { box_x : Z; box_y : Z; box_w : Z; box_h : Z }.

(** The box a face record stores.  For a [dlib.rectangle] the width and the
    height are [right - left] and [bottom - top], as the corners taken at
    lines 145-148. *)
Definition stored_box (o : pyobj) : option Box :=
  match o with
  | ODetectedFace f => Some (mkBox (face_x f) (face_y f) (face_w f) (face_h f))
  | ODict d =>
      Some (mkBox (dict_get d "x") (dict_get d "y") (dict_get d "w") (dict_get d "h"))
  | ORect r => Some (mkBox (left r) (top r) (right r - left r) (bottom r - top r))
  | OOther _ => None
  end.

(** The rotation field, for the shapes that have one. *)
Definition stored_rotation (o : pyobj) : option Z :=
  match o with
  | ODetectedFace f => Some (face_r f)
  | ODict d => fields d !! "r"
  | _ => None
  end.

Definition stored_landmarks (o : pyobj) : list point :=
  match o with
  | ODetectedFace f => landmarksXY f
  | ODict d => default [] (landmarks_entry d)
  | _ => []
  end.

Definition box_corners (b : Box) : list point :=
  corners (box_x b) (box_y b) (box_x b + box_w b) (box_y b + box_h b).

(** The corners the function works on: [rotated[0]], the corners of the
    record's box carried through the inverted matrix. *)
Definition transformed_corners `{OpenCV} (b : Box) (rotation_matrix : matrix) : list point :=
  astype_int32
    (cv2_transform (box_corners b) (cv_invertAffineTransform rotation_matrix)).

(** [b] is the smallest axis-aligned rectangle that contains [pts]: every
    point lies inside, and each of the four sides touches a point. *)
Definition minimal_enclosing (b : Box) (pts : list point) : Prop :=
  (∀ p, p ∈ pts →
        box_x b ≤ fst p ≤ box_x b + box_w b ∧
        box_y b ≤ snd p ≤ box_y b + box_h b) ∧
  (∃ p, p ∈ pts ∧ fst p = box_x b) ∧
  (∃ p, p ∈ pts ∧ snd p = box_y b) ∧
  (∃ p, p ∈ pts ∧ fst p = box_x b + box_w b) ∧
  (∃ p, p ∈ pts ∧ snd p = box_y b + box_h b).

(** The horizontal and vertical extent of the points fits a 32-bit integer,
    so that the subtractions of lines 177-178 do not wrap. *)
Definition extent_fits (pts : list point) : Prop :=
  ∀ p q, p ∈ pts → q ∈ pts →
         fits_int32 (fst p - fst q) ∧ fits_int32 (snd p - snd q).

(** ** Right-angle rotations *)

Inductive quarter_turn : Set := Turn90 | Turn180 | Turn270.

(** The matrix of a rotation by a multiple of 90 degrees with translation
    column [(tx, ty)], in the layout of [cv2.getRotationMatrix2D]:
    [[cos, sin, tx], [-sin, cos, ty]]. *)
Definition quarter_turn_matrix (a : quarter_turn) (tx ty : Q) : matrix :=
  match a with
  | Turn90 => Matrix 0 1 tx (-1) 0 ty
  | Turn180 => Matrix (-1) 0 tx 0 (-1) ty
  | Turn270 => Matrix 0 (-1) tx 1 0 ty
  end.



(** ** add_alpha_channel *)

(** An 8-bit image as the list of its channel planes; a plane lists its
    pixels row by row. *)
Definition Plane : Set := list byte.
Definition Image : Set := list Plane.

(** [astype("float32")] on 8-bit values is exact. *)
Definition float32_of_uint8 (b : byte) : Q := inject_Z (Z.of_N (Byte.to_N b)).

Definition Qtruncate (q : Q) : Z :=
  if Qle_bool 0 q then Qfloor q else Qceiling q.

(** [astype(d_type)] back to 8 bits drops the fractional part. *)
Definition uint8_of_float32 (q : Q) : byte :=
  default x00 (Byte.of_N (Z.to_N (Qtruncate q mod 256))).

(** An image without a pixel. *)
Definition empty_image {A} (img : list (list A)) : bool :=
  forallb (λ plane, match plane with [] => true | _ => false end) img.

(** [cv2.split] yields the channel planes, and nothing for an image
    without a pixel; [cv2.merge] stacks planes. *)
Definition cv2_split {A} (img : list (list A)) : list (list A) :=
  if empty_image img then [] else img.
Definition cv2_merge {A} (planes : list (list A)) : list (list A) := planes.

Definition add_alpha_channel (image : Image) (intensity : Z) : outcome Image :=
  if negb ((0 <=? intensity) && (intensity <=? 100)) then Raises AssertionError
  else
    let intensity := ((255 / 100) * inject_Z intensity)%Q in
    let image := map (map float32_of_uint8) image in
    match cv2_split image with
    | [ch_b; ch_g; ch_r] =>
        let ch_a := map (λ _, (1 * intensity)%Q) ch_b in
        let image_bgra := cv2_merge [ch_b; ch_g; ch_r; ch_a] in
        Returns (map (map uint8_of_float32) image_bgra)
    | _ => Raises ValueError
    end.

(** ** get_image_paths *)

Definition _image_extensions : list string :=
  [".bmp"; ".jpeg"; ".jpg"; ".png"; ".tif"; ".tiff"].

(** What [os.scandir] yields for one entry of a directory. *)
Record DirEntry : Set := mkDirEntry {
  name : string;
  path : string;
  is_dir : bool
}.

(** A file system: what lives at a path.  A directory lists its entries
    by name, in the order the operating system reports them, each with
    the flag telling whether it is itself a directory. *)
Inductive node : Set :=
| NFile
| NDir (children : list (string * bool)).

Abbreviation filesystem := (gmap string node).

(** What the calls take for a path: a string, or the [Path] object that
    [get_folder] builds from a string. *)
Inductive pathlike : Set :=
| PathStr (s : string)
| PosixPath (s : string).

Coercion PathStr : string >-> pathlike.

(** The operating-system calls of the module on a state [S] of the file
    system: [os.path.exists], [Path(path).mkdir(parents=True,
    exist_ok=True)] and [os.scandir] (which reads only). *)
Class FileSystem (S : Type) : Type := {
  os_path_exists : string → S → bool;
  mkdir_parents : string → S → S * outcome unit;
  os_scandir : pathlike → S → outcome (list DirEntry)
}.

Definition io (A : Type) : Type := filesystem → filesystem * outcome A.

Definition table_exists (p : string) (fs : filesystem) : bool :=
  bool_decide (is_Some (fs !! p)).

Definition ends_with_sep (p : string) : bool :=
  match String.get (String.length p - 1) p with
  | Some c => Ascii.eqb c "/"
  | None => false
  end.

(** [os.path.join] of a directory and an entry name. *)
Definition os_path_join (directory name : string) : string :=
  if String.eqb directory "" then name
  else if ends_with_sep directory then directory +:+ name
  else directory +:+ "/" +:+ name.

Definition path_string (p : pathlike) : string :=
  match p with
  | PathStr s => s
  | PosixPath s => s
  end.

Definition table_mkdir (path : string) : io unit :=
  λ fs, match fs !! path with
        | Some (NDir _) => (fs, Returns tt)
        | Some NFile => (fs, Raises FileExistsError)
        | None => (<[path := NDir []]> fs, Returns tt)
        end.

Definition table_scandir (p : pathlike) (fs : filesystem) : outcome (list DirEntry) :=
  let directory := path_string p in
  match fs !! directory with
  | Some (NDir children) =>
      Returns (map (λ c, mkDirEntry (fst c) (os_path_join directory (fst c)) (snd c))
                   children)
  | Some NFile => Raises NotADirectoryError
  | None => Raises FileNotFoundError
  end.

(** The table as a file system.  A path is known to it under the one
    spelling the calls are given, and a directory that is made is entered
    under that spelling. *)
#[global] Instance table_filesystem : FileSystem filesystem := {|
  os_path_exists := table_exists;
  mkdir_parents := table_mkdir;
  os_scandir := table_scandir
|}.

(** Lines 29-35: the folder is made, with its parents, unless it is
    there, and the [Path] is returned. *)
Definition get_folder {S : Type} `{!FileSystem S} (path : string) :
    S → S * outcome pathlike :=
  λ fs, match mkdir_parents path fs with
        | (fs, Returns _) => (fs, Returns (PosixPath path))
        | (fs, Raises e) => (fs, Raises e)
        end.

(** [sorted(..., key=lambda x: x.name)]: a stable sort on the names. *)
Fixpoint insert_by_name (e : DirEntry) (l : list DirEntry) : list DirEntry :=
  match l with
  | [] => [e]
  | e' :: l' =>
      if String.leb (name e) (name e') then e :: l
      else e' :: insert_by_name e l'
  end.

Definition sorted_by_name (l : list DirEntry) : list DirEntry :=
  fold_right insert_by_name [] l.

Definition ascii_lower (c : ascii) : ascii :=
  let n := nat_of_ascii c in
  if (65 <=? n)%nat && (n <=? 90)%nat then ascii_of_nat (n + 32) else c.

(** [str.lower] *)
Fixpoint lower (s : string) : string :=
  match s with
  | EmptyString => EmptyString
  | String c s' => String (ascii_lower c) (lower s')
  end.

(** [str.endswith] *)
Definition endswith (s ext : string) : bool :=
  let n := String.length s in
  let m := String.length ext in
  (m <=? n)%nat && String.eqb (String.substring (n - m) m s) ext.

Definition get_image_paths {S : Type} `{!FileSystem S} (directory : string) :
    S → S * outcome (list string) :=
  λ fs,
    let image_extensions := _image_extensions in
    let created :=
      if negb (os_path_exists directory fs) then get_folder directory fs
      else (fs, Returns (PathStr directory)) in
    match created with
    | (fs, Raises e) => (fs, Raises e)
    | (fs, Returns directory) =>
        match os_scandir directory fs with
        | Raises e => (fs, Raises e)
        | Returns scanned =>
            let dir_scanned := sorted_by_name scanned in
            let dir_contents :=
              fold_left
                (λ dir_contents chkfile,
                   if existsb (λ ext, endswith (lower (name chkfile)) ext)
                              image_extensions
                   then dir_contents ++ [path chkfile]
                   else dir_contents)
                dir_scanned [] in
            (fs, Returns dir_contents)
        end
    end.

(** ** camel_case_split *)

Definition is_lower (c : ascii) : bool :=
  let n := nat_of_ascii c in (97 <=? n)%nat && (n <=? 122)%nat.

Definition is_upper (c : ascii) : bool :=
  let n := nat_of_ascii c in (65 <=? n)%nat && (n <=? 90)%nat.

Definition newline : ascii := "010"%char.

(** The end of a lazy match [.+?] whose last character is [c], with [rest]
    still ahead: one of the three alternatives of the pattern holds,
    [(?<=[a-z])(?=[A-Z])], [(?<=[A-Z])(?=[A-Z][a-z])] or [$].  Without the
    MULTILINE flag [$] holds at the end of the string and just before a
    newline that ends the string. *)
Definition boundary (c : ascii) (rest : string) : bool :=
  match rest with
  | EmptyString => true
  | String d rest' =>
      (is_lower c && is_upper d)
      || (is_upper c && is_upper d &&
          match rest' with
          | String d' _ => is_lower d'
          | EmptyString => false
          end)
      || (Ascii.eqb d newline &&
          match rest' with
          | EmptyString => true
          | _ => false
          end)
  end.

(** [finditer] for this pattern, scanning from the left.  [acc] holds the
    characters the current match has consumed.  [.] does not match a
    newline, so a match that reaches one before a boundary fails, as does
    every later start before that newline; the search resumes after it. *)
Fixpoint finditer (acc : string) (identifier : string) : list string :=
  match identifier with
  | EmptyString => []
  | String c rest =>
      if Ascii.eqb c newline then finditer "" rest
      else
        let acc := acc +:+ String c "" in
        if boundary c rest then acc :: finditer "" rest
        else finditer acc rest
  end.

Definition camel_case_split (identifier : string) : list string :=
  finditer "" identifier.

(** ** Vocabulary of the statements *)

(** Lines 169-172 on a box: the smallest and the largest coordinates of the
    transformed corners, [(pt_x, pt_y, pt_x1, pt_y1)]. *)
Definition corrected_sides `{OpenCV} (b : Box) (rotation_matrix : matrix) : Z * Z * Z * Z :=
  let pts := transformed_corners b rotation_matrix in
  let xs := map fst pts in
  let ys := map snd pts in
  (fold_left Z.min (tail xs) (hd 0 xs), fold_left Z.min (tail ys) (hd 0 ys),
   fold_left Z.max (tail xs) (hd 0 xs), fold_left Z.max (tail ys) (hd 0 ys)).

(** Lines 175-178: the origin is the smallest corner, the size is the
    32-bit difference to the largest. *)
Definition corrected_box `{OpenCV} (b : Box) (rotation_matrix : matrix) : Box :=
  let s := corrected_sides b rotation_matrix in
  mkBox s.1.1.1 s.1.1.2 (np_int32 (s.1.2 - s.1.1.1)) (np_int32 (s.2 - s.1.1.2)).

(** Lines 193-194: the rectangle through the smallest and largest corner. *)
Definition corrected_rectangle `{OpenCV} (r : rectangle) (rotation_matrix : matrix) :
    rectangle :=
  let s := corrected_sides
             (mkBox (left r) (top r) (right r - left r) (bottom r - top r))
             rotation_matrix in
  mkRectangle s.1.1.1 s.1.1.2 s.1.2 s.2.

(** The landmarks carried through the inverted matrix, [rotated[1]]. *)
Definition transformed_landmarks `{OpenCV} (l : list point) (rotation_matrix : matrix) :
    list point :=
  astype_int32 (cv2_transform l (cv_invertAffineTransform rotation_matrix)).

(** A [DetectedFace] after the assignments of lines 175-179. *)
Definition face_with_box (b : Box) (f : DetectedFace) : DetectedFace :=
  mkDetectedFace (box_x b) (box_y b) (box_w b) (box_h b) 0 (landmarksXY f).

(** An alignments dictionary after the assignments of lines 184-188. *)
Definition dict_with_box (b : Box) (d : alignment) : alignment :=
  dict_set "r" 0
    (dict_set "h" (box_h b)
       (dict_set "w" (box_w b)
          (dict_set "y" (box_y b) (dict_set "x" (box_x b) d)))).

Definition face_box (f : DetectedFace) : Box :=
  mkBox (face_x f) (face_y f) (face_w f) (face_h f).

Definition dict_box (d : alignment) : Box :=
  mkBox (dict_get d "x") (dict_get d "y") (dict_get d "w") (dict_get d "h").

(** The rectangle with the given left, top, right, bottom as a box. *)
Definition rect_box (r : rectangle) : Box :=
  mkBox (left r) (top r) (right r - left r) (bottom r - top r).

(** The coordinates the function puts into [int32] arrays, the corners of
    the box and the landmarks, have a 32-bit representation. *)
Definition record_fits (o : pyobj) : bool :=
  match stored_box o with
  | Some b => points_fit (box_corners b) && points_fit (stored_landmarks o)
  | None => true
  end.

(** One of the three shapes the function accepts. *)
Definition recognized (o : option pyobj) : bool :=
  match o with
  | Some (ODetectedFace _) | Some (ODict _) | Some (ORect _) => true
  | _ => false
  end.

(** The record that holds the corrected box after a call on [face]: the
    record itself for the two mutable shapes, the returned rectangle for a
    [dlib.rectangle]. *)
Definition result_record (o : pyobj) (face : loc) (out : heap * outcome loc) : option pyobj :=
  match o with
  | ORect _ =>
      match snd out with
      | Returns l => fst out !! l
      | Raises _ => None
      end
  | _ => fst out !! face
  end.


(** Coordinates of a size that a rotation and a translation keep within
    32-bit integers. *)
Definition pixel_range (z : Z) : Prop := - 2 ^ 29 ≤ z ≤ 2 ^ 29.

Definition offset_range (t : Q) : Prop :=
  (inject_Z (- 2 ^ 29) <= t)%Q ∧ (t <= inject_Z (2 ^ 29))%Q.

Definition box_in_range (b : Box) : Prop :=
  pixel_range (box_x b) ∧ pixel_range (box_y b) ∧
  pixel_range (box_x b + box_w b) ∧ pixel_range (box_y b + box_h b).

Definition integral (t : Q) : Prop := ∃ k : Z, (t == inject_Z k)%Q.

Definition identity_matrix : matrix := Matrix 1 0 0 0 1 0.

(** The pieces of a split put back together. *)
Definition joined (pieces : list string) : string :=
  fold_right String.append "" pieces.

Fixpoint has_newline (s : string) : bool :=
  match s with
  | EmptyString => false
  | String c s' => Ascii.eqb c newline || has_newline s'
  end.

(** The name ends, ignoring case, with one of the image extensions. *)
Definition image_name (n : string) : Prop :=
  ∃ ext stem, ext ∈ _image_extensions ∧ lower n = stem +:+ ext.

Definition image_entry (e : DirEntry) : bool :=
  existsb (λ ext, endswith (lower (name e)) ext) _image_extensions.

Definition name_le (e e' : DirEntry) : Prop := String.leb (name e) (name e') = true.

(** The result of [get_image_paths] lists the images of a scan: the
    paths of exactly the scanned entries with the name of an image, in
    ascending order of entry name, with the file system as it is; an
    error of the scan is the result. *)
Definition lists_images {S : Type} (result : S * outcome (list string)) (σ : S)
    (scan : outcome (list DirEntry)) : Prop :=
  match scan with
  | Returns scanned =>
      ∃ es,
        result = (σ, Returns (map path es)) ∧
        es ≡ₚ List.filter image_entry scanned ∧
        StronglySorted name_le es ∧
        ∀ e, e ∈ es ↔ e ∈ scanned ∧ image_name (name e)
  | Raises e => result = (σ, Raises e)
  end.

(** The entries [os.scandir] reports for a directory with these children. *)
Definition entries_of (directory : string) (children : list (string * bool)) : list DirEntry :=
  map (λ c, mkDirEntry (fst c) (os_path_join directory (fst c)) (snd c)) children.



(** ** Sample inputs

    Concrete records, matrices, images and directories on which the
    statements below are evaluated. *)

(** A translation by five pixels along x. *)
Definition shift5 : matrix := Matrix 1 0 5 0 1 0.

(** A quarter turn that moves the origin to (100, 0). *)
Definition turn0 : matrix := quarter_turn_matrix Turn90 100 0.

(** An alignment mapping with two landmarks. *)
Definition dict0 : alignment :=
  mkAlignment (<["x" := 10]> (<["y" := 20]> (<["w" := 30]> (<["h" := 40]> ∅))))
              (Some [(1, 2); (3, 4)]).

(** Faces with no landmark and with two landmarks. *)
Definition face0 : DetectedFace := mkDetectedFace 10 20 30 40 90 [].
Definition face2 : DetectedFace := mkDetectedFace 10 20 30 40 90 [(11, 22); (33, 44)].

(** A box, and the rectangle it becomes under [turn0]. *)
Definition box0 : Box := mkBox 10 20 30 40.
Definition rect90 : rectangle := mkRectangle 120 (-40) 160 (-10).

(** A face whose width has no 32-bit representation. *)
Definition face_huge : DetectedFace :=
  mkDetectedFace 0 0 (2 ^ 70) 10 7 [(1, 1); (2, 2)].

(** The store that holds one object, at reference 1. *)
Definition store_of (o : pyobj) : heap := {[1%positive := o]}.

(** The colour planes of an image of two pixels. *)
Definition blue0 : Plane := [x10; x20].
Definition green0 : Plane := [x30; x40].
Definition red0 : Plane := [xff; x00].

(** A directory whose only child is a sub-directory called x.png. *)
Definition fs_with_subdirectory : filesystem := {["d" := NDir [("x.png", true)]]}.

(** ** Further vocabulary and sample inputs *)

(** The point lies in the box, sides included. *)
Definition inside (b : Box) (p : point) : Prop :=
  box_x b ≤ fst p ≤ box_x b + box_w b ∧ box_y b ≤ snd p ≤ box_y b + box_h b.

(** Every coordinate of the points is at most [bound] in magnitude. *)
Definition coordinates_within (bound : Z) (pts : list point) : Prop :=
  ∀ p, p ∈ pts → - bound ≤ fst p ≤ bound ∧ - bound ≤ snd p ≤ bound.

(** Each coordinate of [p'] is at most one pixel away from that of [p]. *)
Definition point_close (p p' : point) : Prop :=
  Z.abs (fst p' - fst p) ≤ 1 ∧ Z.abs (snd p' - snd p) ≤ 1.

Definition determinant (M : matrix) : Q := (m00 M * m11 M - m01 M * m10 M)%Q.

(** The linear part of the matrix holds whole numbers of at most 2048:
    their products and the difference of the products are computed
    without error in single and in double precision. *)
Definition whole_entries (M : matrix) : Prop :=
  ∃ a b c d : Z,
    (m00 M == inject_Z a)%Q ∧ (m01 M == inject_Z b)%Q ∧
    (m10 M == inject_Z c)%Q ∧ (m11 M == inject_Z d)%Q ∧
    Z.abs a ≤ 2048 ∧ Z.abs b ≤ 2048 ∧ Z.abs c ≤ 2048 ∧ Z.abs d ≤ 2048.

(** The matrix of a translation by [(tx, ty)]. *)
Definition translation_matrix (tx ty : Q) : matrix := Matrix 1 0 tx 0 1 ty.

(** A face with a single landmark. *)
Definition face1 : DetectedFace := mkDetectedFace 10 20 30 40 90 [(11, 22)].

(** A matrix without an inverse. *)
Definition flat_matrix : matrix := Matrix 1 2 3 2 4 5.
(** The boolean forms of [inside] and [coordinates_within]. *)
Definition insideb (b : Box) (p : point) : bool :=
  (box_x b <=? fst p) && (fst p <=? box_x b + box_w b) &&
  (box_y b <=? snd p) && (snd p <=? box_y b + box_h b).

Definition withinb (bound : Z) (p : point) : bool :=
  (- bound <=? fst p) && (fst p <=? bound) && (- bound <=? snd p) && (snd p <=? bound).

(** The face [face2] as a detector finds it in the image turned by [turn0]. *)
Definition face_turned : DetectedFace :=
  mkDetectedFace 120 (-40) 40 30 90 [(122, -11); (144, -33)].
(** A run of characters that [camel_case_split] leaves whole: no newline,
    and no place inside where a match of the pattern may end. *)
Fixpoint unbroken (t : string) : bool :=
  match t with
  | EmptyString => true
  | String c rest =>
      negb (Ascii.eqb c newline)
      && match rest with
         | EmptyString => true
         | _ => negb (boundary c rest)
         end
      && unbroken rest
  end.

Fixpoint all_chars (f : ascii → bool) (s : string) : bool :=
  match s with
  | EmptyString => true
  | String c rest => f c && all_chars f rest
  end.

(** A camel hump between the characters [c] and [d], with [rest] after
    [d]: lower then upper case, or upper case before an upper-case letter
    that starts a word. *)
Definition hump (c d : ascii) (rest : string) : bool :=
  (is_lower c && is_upper d)
  || (is_upper c && is_upper d &&
      match rest with
      | String e _ => is_lower e
      | EmptyString => false
      end).
(** Line 25. *)
Definition _video_extensions : list string :=
  [".avi"; ".flv"; ".mkv"; ".mov"; ".mp4"; ".mpeg"; ".webm"].

(** The name of the entry ends, ignoring case, with a video extension. *)
Definition video_entry (e : DirEntry) : bool :=
  existsb (λ ext, endswith (lower (name e)) ext) _video_extensions.

(** A directory that holds an image, a video and a text file. *)
Definition fs_mixed : filesystem :=
  {["d" := NDir [("clip.MP4", false); ("b.PNG", false); ("a.txt", false)]]}.
(** ** set_system_verbosity

    The process state the function writes: the environment variables and
    the list of warning filters of the [warnings] module. *)

(** An entry of [warnings.filters]: the action, the pattern for the
    message, the category (the name of the class), the pattern for the
    module, and the line number. *)
Record warning_filter : Set := mkFilter {
  action : string;
  message : option string;
  category : string;
  module_pattern : option string;
  lineno : nat
}.

#[global] Instance warning_filter_eq_dec : EqDecision warning_filter.
Proof. solve_decision. Defined.

Record interpreter : Type := mkInterpreter {
  environ : gmap string string;
  filters : list warning_filter
}.

(** [list.remove]: the first occurrence goes; the ValueError for a value
    that is absent is caught and passed over by the caller. *)
Fixpoint list_remove (item : warning_filter) (l : list warning_filter) : list warning_filter :=
  match l with
  | [] => []
  | x :: l' => if decide (x = item) then l' else x :: list_remove item l'
  end.

(** [warnings._add_filter]: a duplicate is removed so that the entry
    stands at the front; with [append] an entry that is already there is
    left where it is. *)
Definition _add_filter (item : warning_filter) (append : bool)
    (l : list warning_filter) : list warning_filter :=
  if negb append then item :: list_remove item l
  else if decide (item ∈ l) then l else l ++ [item].

(** [warnings.simplefilter(action=..., category=...)] *)
Definition simplefilter (action category : string) (l : list warning_filter) :
    list warning_filter :=
  _add_filter (mkFilter action None category None 0) false l.

(** Lines 78-94; [effective_level] is [logger.getEffectiveLevel()]. *)
Definition set_system_verbosity (effective_level : Z) (s : interpreter) : interpreter :=
  let loglevel := if 15 <? effective_level then "2" else "0" in
  let environ' := <["TF_CPP_MIN_LOG_LEVEL" := loglevel]> (environ s) in
  if negb (String.eqb loglevel "0") then
    mkInterpreter environ'
      (fold_left (λ l warncat, simplefilter "ignore" warncat l)
                 ["FutureWarning"; "DeprecationWarning"] (filters s))
  else mkInterpreter environ' (filters s).

Definition ignore_future : warning_filter := mkFilter "ignore" None "FutureWarning" None 0.
Definition ignore_deprecation : warning_filter :=
  mkFilter "ignore" None "DeprecationWarning" None 0.

(** A process with one variable set and two filters installed, the second of
    them the ignore entry for FutureWarning. *)
Definition interpreter0 : interpreter :=
  mkInterpreter {["PATH" := "/usr/bin"]}
    [mkFilter "default" None "Warning" None 0; ignore_future].

(** * Properties

    Everything below is proved about the definitions above. *)

(** ** Integer wrap-around and rounding *)

Lemma np_int32_fits z : fits_int32 z → np_int32 z = z.
Proof.
  unfold fits_int32, int32_min, int32_max, np_int32. intros H.
  rewrite Z.mod_small; lia.
Qed.

Lemma np_int32_range z : fits_int32 (np_int32 z).
Proof.
  unfold fits_int32, int32_min, int32_max, np_int32.
  pose proof (Z.mod_pos_bound (z + 2 ^ 31) (2 ^ 32)). lia.
Qed.

#[global] Instance cvRound_proper : Proper (Qeq ==> eq) cvRound.
Proof.
  intros p q Hpq. unfold cvRound.
  rewrite (Qfloor_comp _ _ Hpq).
  assert (H : (p - inject_Z (Qfloor q) == q - inject_Z (Qfloor q))%Q) by (rewrite Hpq; reflexivity).
  rewrite (Qcompare_comp _ _ H (1#2) (1#2) (Qeq_refl _)). reflexivity.
Qed.

Lemma cvRound_inject_Z z : cvRound (inject_Z z) = z.
Proof.
  unfold cvRound. rewrite Qfloor_Z.
  assert (H : (inject_Z z - inject_Z z ?= 1 # 2)%Q = Lt).
  { rewrite <- Qlt_alt. lra. }
  rewrite H. reflexivity.
Qed.

Lemma cvRound_bounds q :
  (inject_Z (cvRound q) - q <= 1 # 2)%Q ∧ (q - inject_Z (cvRound q) <= 1 # 2)%Q.
Proof.
  unfold cvRound.
  pose proof (Qfloor_le q) as Hlo. pose proof (Qlt_floor q) as Hhi.
  rewrite inject_Z_plus in Hhi. change (inject_Z 1) with 1%Q in *.
  destruct (Qcompare (q - inject_Z (Qfloor q)) (1 # 2)) eqn:E.
  - apply Qeq_alt in E. destruct (Z.even (Qfloor q)).
    + split; lra.
    + rewrite inject_Z_plus. change (inject_Z 1) with 1%Q. split; lra.
  - apply Qlt_alt in E. split; lra.
  - apply Qgt_alt in E. rewrite inject_Z_plus. change (inject_Z 1) with 1%Q. split; lra.
Qed.

(** ** The store *)

Lemma alter_Some (σ : heap) l g o :
  σ !! l = Some o → alter g l σ = <[l := g o]> σ.
Proof.
  intros H. apply map_eq. intros i.
  destruct (decide (i = l)) as [->|Hne].
  - rewrite lookup_alter_eq, lookup_insert_eq, H. reflexivity.
  - rewrite lookup_alter_ne, lookup_insert_ne by done. reflexivity.
Qed.

Lemma alter_insert_same (σ : heap) l g o :
  alter g l (<[l := o]> σ) = <[l := g o]> σ.
Proof.
  rewrite (alter_Some _ _ _ o) by apply lookup_insert_eq.
  apply insert_insert_eq.
Qed.

(** Successive attribute assignments to one object collapse into one store. *)
Ltac run_stores H :=
  rewrite (alter_Some _ _ _ _ H); rewrite ?alter_insert_same.

(** Unfolds the monadic plumbing of [rotate_landmarks] up to the loop over
    the bounding box and the landmarks. *)
Ltac enter_rotate H :=
  unfold rotate_landmarks, mbind, py_bind, bind, deref, lift, mret, py_ret, ret, update, alloc;
  rewrite H; cbn [face_geometry fst snd].

Ltac normalise_records :=
  cbv beta iota delta
    [on_face on_dict set_r set_h set_w set_y set_x set_landmarksXY
     dict_set dict_set_landmarks dict_with_box dict_box dict_get rect_box
     face_with_box corrected_box corrected_sides corrected_rectangle
     transformed_corners transformed_landmarks
     box_corners corners face_box astype_int32 cv2_transform
     face_x face_y face_w face_h face_r landmarksXY fields landmarks_entry
     left top right bottom box_x box_y box_w box_h
     map hd tail fold_left fst snd].

Lemma add_sub_cancel (a b : Z) : a + (b - a) = b.
Proof. lia. Qed.

Lemma fits_int32b_true (z : Z) : fits_int32b z = true ↔ fits_int32 z.
Proof. unfold fits_int32b, fits_int32. lia. Qed.

Lemma saturate_cast_fits (z : Z) : fits_int32 z → saturate_cast z = z.
Proof.
  intros H. unfold saturate_cast. apply fits_int32b_true in H. rewrite H. reflexivity.
Qed.

Lemma points_fit_spec (pts : list point) :
  points_fit pts = true ↔ ∀ p, p ∈ pts → fits_int32 (fst p) ∧ fits_int32 (snd p).
Proof.
  unfold points_fit. rewrite forallb_forall. split.
  - intros H p Hp. apply list_elem_of_In in Hp. specialize (H p Hp).
    apply andb_prop in H as [H1 H2]. split; apply fits_int32b_true; assumption.
  - intros H p Hp. apply list_elem_of_In in Hp. destruct (H p Hp) as [H1 H2].
    apply andb_true_intro. split; apply fits_int32b_true; assumption.
Qed.

(** *** The loop over the bounding box and the landmarks *)

Section Loop.

Context `{K : OpenCV}.

Lemma rotate_items_fit (box landmarks : list point) (A : matrix) :
  box ≠ [] →
  points_fit box = true → points_fit landmarks = true →
  rotate_items [box; landmarks] A =
    Returns (squeeze (cv2_transform box A) ::
             match landmarks with
             | [] => []
             | _ => [squeeze (cv2_transform landmarks A)]
             end).
Proof.
  intros Hne Hbox Hlm. unfold rotate_items, np_array_int32, astype_int32.
  cbn [fold_left outcome_bind]. rewrite Hbox. cbn [outcome_bind].
  destruct box as [|c box]; [congruence|]. cbn [outcome_bind app].
  destruct landmarks as [|p l]; [reflexivity|].
  rewrite Hlm. reflexivity.
Qed.

Lemma rotate_items_overflow (box landmarks : list point) (A : matrix) :
  box ≠ [] →
  points_fit box && points_fit landmarks = false →
  rotate_items [box; landmarks] A = Raises OverflowError.
Proof.
  intros Hne Hfit. unfold rotate_items, np_array_int32, astype_int32.
  cbn [fold_left outcome_bind].
  destruct box as [|c box]; [congruence|].
  destruct (points_fit (c :: box)) eqn:Hbox; cbn [outcome_bind]; [|reflexivity].
  cbn [andb] in Hfit. destruct landmarks as [|p l]; [discriminate Hfit|].
  rewrite Hfit. reflexivity.
Qed.

End Loop.

(** *** What [rotate_landmarks] computes, shape by shape

    The arithmetic is kept folded so that both sides are compared as
    written. *)

Section MasterLemmas.

Context `{K : OpenCV}.

Local Opaque np_int32 Z.min Z.max Z.add Z.sub.

Lemma corners_nonempty (x0 y0 x1 y1 : Z) : corners x0 y0 x1 y1 ≠ [].
Proof. discriminate. Qed.

Lemma rotate_landmarks_face (σ : heap) face M f :
  σ !! face = Some (ODetectedFace f) →
  record_fits (ODetectedFace f) = true →
  let f' := face_with_box (corrected_box (face_box f) M) f in
  rotate_landmarks face M σ =
    match landmarksXY f with
    | [] => (<[face := ODetectedFace f']> σ, Raises UnboundLocalError)
    | [_] => (<[face := ODetectedFace f']> σ, Raises TypeError)
    | l => (<[face := ODetectedFace (set_landmarksXY (transformed_landmarks l M) f')]> σ,
            Returns face)
    end.
Proof.
  intros H Hfit f'. subst f'. enter_rotate H.
  unfold record_fits in Hfit. cbn [stored_box stored_landmarks] in Hfit.
  unfold box_corners in Hfit. cbn [box_x box_y box_w box_h] in Hfit.
  apply andb_prop in Hfit as [Hbox Hlm].
  rewrite (rotate_items_fit _ _ _ (corners_nonempty _ _ _ _) Hbox Hlm).
  unfold corners at 1.
  destruct f as [fx fy fw fh fr fl]. cbn [landmarksXY] in *.
  destruct fl as [|p [|p' l]]; cbn; run_stores H; normalise_records; reflexivity.
Qed.

Lemma rotate_landmarks_dict (σ : heap) face M d :
  σ !! face = Some (ODict d) →
  record_fits (ODict d) = true →
  let d' := dict_with_box (corrected_box (dict_box d) M) d in
  rotate_landmarks face M σ =
    match default [] (landmarks_entry d) with
    | [] => (<[face := ODict d']> σ, Raises UnboundLocalError)
    | [_] => (<[face := ODict d']> σ, Raises TypeError)
    | l => (<[face := ODict (dict_set_landmarks (transformed_landmarks l M) d')]> σ,
            Returns face)
    end.
Proof.
  intros H Hfit d'. subst d'. enter_rotate H.
  unfold record_fits in Hfit. cbn [stored_box stored_landmarks] in Hfit.
  unfold box_corners in Hfit. cbn [box_x box_y box_w box_h] in Hfit.
  apply andb_prop in Hfit as [Hbox Hlm].
  rewrite (rotate_items_fit _ _ _ (corners_nonempty _ _ _ _) Hbox Hlm).
  unfold corners at 1.
  destruct d as [df dl]. cbn [landmarks_entry] in *.
  destruct (default [] dl) as [|p [|p' l]]; cbn; run_stores H; normalise_records;
    reflexivity.
Qed.

Lemma rotate_landmarks_rect (σ : heap) face M r :
  σ !! face = Some (ORect r) →
  record_fits (ORect r) = true →
  rotate_landmarks face M σ =
    (<[fresh (dom σ) := ORect (corrected_rectangle r M)]> σ, Returns (fresh (dom σ))).
Proof.
  intros H Hfit. enter_rotate H.
  unfold record_fits in Hfit. cbn [stored_box stored_landmarks] in Hfit.
  unfold box_corners in Hfit. cbn [box_x box_y box_w box_h] in Hfit.
  rewrite !add_sub_cancel in Hfit.
  apply andb_prop in Hfit as [Hbox Hlm].
  rewrite (rotate_items_fit _ _ _ (corners_nonempty _ _ _ _) Hbox Hlm).
  unfold corners at 1.
  destruct r as [rl rt rr rb]. cbn. normalise_records.
  rewrite !add_sub_cancel.
  reflexivity.
Qed.

(** A coordinate without a 32-bit representation stops the call in the
    loop, before anything is written. *)
Lemma rotate_landmarks_overflow (σ : heap) face M (o : pyobj) :
  σ !! face = Some o →
  recognized (Some o) = true →
  record_fits o = false →
  rotate_landmarks face M σ = (σ, Raises OverflowError).
Proof.
  intros H Hrec Hfit. enter_rotate H.
  unfold record_fits in Hfit.
  destruct o as [f|d|r|t]; [| | |discriminate Hrec];
    cbn [stored_box stored_landmarks] in Hfit;
    unfold box_corners in Hfit; cbn [box_x box_y box_w box_h] in Hfit;
    rewrite ?add_sub_cancel in Hfit;
    cbn [face_geometry fst snd];
    rewrite (rotate_items_overflow _ _ _ (corners_nonempty _ _ _ _) Hfit);
    reflexivity.
Qed.

End MasterLemmas.


(** ** Minimum and maximum of a column *)

Lemma fold_min_spec (l : list Z) (z : Z) :
  fold_left Z.min l z ∈ z :: l ∧ ∀ x, x ∈ z :: l → fold_left Z.min l z ≤ x.
Proof.
  revert z. induction l as [|a l IH]; intros z; cbn [fold_left].
  - split; [left|]. intros x Hx. apply list_elem_of_singleton in Hx. lia.
  - destruct (IH (Z.min z a)) as [Hin Hle]. split.
    + apply elem_of_cons in Hin as [Hin|Hin].
      * rewrite Hin. destruct (Z.min_spec z a) as [[_ ->]|[_ ->]]; first [left|right; left].
      * right; right; exact Hin.
    + intros x Hx. apply elem_of_cons in Hx as [->|Hx].
      * specialize (Hle (Z.min z a)). pose proof (Hle ltac:(left)). lia.
      * apply elem_of_cons in Hx as [->|Hx].
        -- specialize (Hle (Z.min z a)). pose proof (Hle ltac:(left)). lia.
        -- apply Hle. right. exact Hx.
Qed.

Lemma fold_max_spec (l : list Z) (z : Z) :
  fold_left Z.max l z ∈ z :: l ∧ ∀ x, x ∈ z :: l → x ≤ fold_left Z.max l z.
Proof.
  revert z. induction l as [|a l IH]; intros z; cbn [fold_left].
  - split; [left|]. intros x Hx. apply list_elem_of_singleton in Hx. lia.
  - destruct (IH (Z.max z a)) as [Hin Hle]. split.
    + apply elem_of_cons in Hin as [Hin|Hin].
      * rewrite Hin. destruct (Z.max_spec z a) as [[_ ->]|[_ ->]]; first [left|right; left].
      * right; right; exact Hin.
    + intros x Hx. apply elem_of_cons in Hx as [->|Hx].
      * specialize (Hle (Z.max z a)). pose proof (Hle ltac:(left)). lia.
      * apply elem_of_cons in Hx as [->|Hx].
        -- specialize (Hle (Z.max z a)). pose proof (Hle ltac:(left)). lia.
        -- apply Hle. right. exact Hx.
Qed.

(** The box through a non-empty list of points encloses them minimally. *)
Lemma enclosing_of_points (p : point) (ps : list point) (w h : Z) :
  let pts := p :: ps in
  let x0 := fold_left Z.min (map fst ps) (fst p) in
  let y0 := fold_left Z.min (map snd ps) (snd p) in
  let x1 := fold_left Z.max (map fst ps) (fst p) in
  let y1 := fold_left Z.max (map snd ps) (snd p) in
  w = x1 - x0 → h = y1 - y0 →
  minimal_enclosing (mkBox x0 y0 w h) pts.
Proof.
  intros pts x0 y0 x1 y1 -> ->.
  destruct (fold_min_spec (map fst ps) (fst p)) as [Hx0 Hx0le].
  destruct (fold_min_spec (map snd ps) (snd p)) as [Hy0 Hy0le].
  destruct (fold_max_spec (map fst ps) (fst p)) as [Hx1 Hx1le].
  destruct (fold_max_spec (map snd ps) (snd p)) as [Hy1 Hy1le].
  fold x0 in Hx0, Hx0le. fold y0 in Hy0, Hy0le.
  fold x1 in Hx1, Hx1le. fold y1 in Hy1, Hy1le.
  change (fst p :: map fst ps) with (map fst pts) in *.
  change (snd p :: map snd ps) with (map snd pts) in *.
  unfold minimal_enclosing; cbn [box_x box_y box_w box_h].
  split; [|split; [|split; [|split]]].
  - intros q Hq.
    pose proof (Hx0le (fst q) (list_elem_of_fmap_2 fst _ _ Hq)).
    pose proof (Hx1le (fst q) (list_elem_of_fmap_2 fst _ _ Hq)).
    pose proof (Hy0le (snd q) (list_elem_of_fmap_2 snd _ _ Hq)).
    pose proof (Hy1le (snd q) (list_elem_of_fmap_2 snd _ _ Hq)).
    lia.
  - apply list_elem_of_fmap in Hx0 as [q [Hq Hin]]. exists q. split; [exact Hin|lia].
  - apply list_elem_of_fmap in Hy0 as [q [Hq Hin]]. exists q. split; [exact Hin|lia].
  - apply list_elem_of_fmap in Hx1 as [q [Hq Hin]]. exists q. split; [exact Hin|lia].
  - apply list_elem_of_fmap in Hy1 as [q [Hq Hin]]. exists q. split; [exact Hin|lia].
Qed.

(** ** rotate_landmarks: the stored box, errors and the missing landmarks *)

Section Enclosing.

Context `{K : OpenCV}.

Lemma transformed_corners_cons (b : Box) M :
  ∃ p ps, transformed_corners b M = p :: ps.
Proof.
  unfold transformed_corners, box_corners, corners.
  cbn [map cv2_transform astype_int32]. eauto.
Qed.

Lemma corrected_box_enclosing (b : Box) M :
  extent_fits (transformed_corners b M) →
  minimal_enclosing (corrected_box b M) (transformed_corners b M).
Proof.
  intros Hfit. unfold corrected_box, corrected_sides. cbn [fst snd].
  destruct (transformed_corners_cons b M) as (p & ps & E).
  rewrite E in *. cbn [map hd tail].
  destruct (fold_min_spec (map fst ps) (fst p)) as [Hx0 _].
  destruct (fold_min_spec (map snd ps) (snd p)) as [Hy0 _].
  destruct (fold_max_spec (map fst ps) (fst p)) as [Hx1 _].
  destruct (fold_max_spec (map snd ps) (snd p)) as [Hy1 _].
  change (fst p :: map fst ps) with (map fst (p :: ps)) in *.
  change (snd p :: map snd ps) with (map snd (p :: ps)) in *.
  apply list_elem_of_fmap in Hx0 as (qx0 & Ex0 & Hqx0).
  apply list_elem_of_fmap in Hy0 as (qy0 & Ey0 & Hqy0).
  apply list_elem_of_fmap in Hx1 as (qx1 & Ex1 & Hqx1).
  apply list_elem_of_fmap in Hy1 as (qy1 & Ey1 & Hqy1).
  apply enclosing_of_points.
  - rewrite Ex0, Ex1. apply np_int32_fits. apply (Hfit qx1 qx0); assumption.
  - rewrite Ey0, Ey1. apply np_int32_fits. apply (Hfit qy1 qy0); assumption.
Qed.

Lemma rect_corners_enclosing (r : rectangle) M :
  minimal_enclosing (rect_box (corrected_rectangle r M))
                    (transformed_corners (rect_box r) M).
Proof.
  unfold corrected_rectangle, corrected_sides. fold (rect_box r).
  destruct (transformed_corners_cons (rect_box r) M) as (p & ps & E).
  rewrite E. cbn [map hd tail fst snd]. unfold rect_box at 1. cbn [left top right bottom].
  apply enclosing_of_points; reflexivity.
Qed.

End Enclosing.

Lemma stored_box_dict_with_box (b : Box) (d : alignment) :
  dict_box (dict_with_box b d) = b.
Proof.
  destruct b as [x y w h]. unfold dict_box, dict_with_box, dict_get, dict_set.
  cbn [fields landmarks_entry box_x box_y box_w box_h].
  f_equal; simplify_map_eq; reflexivity.
Qed.

Lemma stored_rotation_dict_with_box (b : Box) (d : alignment) :
  fields (dict_with_box b d) !! "r" = Some 0.
Proof.
  unfold dict_with_box, dict_set. cbn [fields]. apply lookup_insert_eq.
Qed.

(** C1, amended: for each of the three supported shapes (DetectedFace,
    alignment mapping, bare rectangle) whose box corners and landmarks
    have 32-bit representations, and for every 2x3 affine matrix, the box
    stored after [rotate_landmarks] is the minimal axis-aligned rectangle
    around the four corners as [cv2.transform] returns them for the
    inverted matrix: x and y are the least corner coordinates, w and h the
    differences to the greatest ones, taken to fit 32 bits, and the
    rotation field r is 0 (a bare rectangle has no such field).  This
    holds for every implementation of the two OpenCV calls.  The record is
    read from the store, whether or not the call returns. *)
Theorem rotate_landmarks_stores_enclosing_box `{K : OpenCV} (σ : heap) face M o b :
  σ !! face = Some o →
  stored_box o = Some b →
  record_fits o = true →
  extent_fits (transformed_corners b M) →
  ∃ o' b',
    result_record o face (rotate_landmarks face M σ) = Some o' ∧
    stored_box o' = Some b' ∧
    minimal_enclosing b' (transformed_corners b M) ∧
    stored_rotation o' = match o with ORect _ => None | _ => Some 0 end.
Proof.
  intros Hface Hbox Hrec Hfit. destruct o as [f|d|r|t]; cbn in Hbox; [| | |discriminate].
  - injection Hbox as <-. fold (face_box f) in Hfit |- *.
    pose proof (corrected_box_enclosing _ _ Hfit) as Henc.
    rewrite (rotate_landmarks_face _ _ _ _ Hface Hrec). cbv zeta.
    destruct (landmarksXY f) as [|p [|p' l]]; unfold result_record; cbn [fst snd];
      rewrite lookup_insert_eq;
      (eexists; exists (corrected_box (face_box f) M);
       split; [reflexivity|split; [reflexivity|split; [exact Henc|reflexivity]]]).
  - injection Hbox as <-. fold (dict_box d) in Hfit |- *.
    pose proof (corrected_box_enclosing _ _ Hfit) as Henc.
    rewrite (rotate_landmarks_dict _ _ _ _ Hface Hrec). cbv zeta.
    destruct (default [] (landmarks_entry d)) as [|p [|p' l]]; unfold result_record;
      cbn [fst snd]; rewrite lookup_insert_eq;
      (eexists; exists (corrected_box (dict_box d) M);
       split; [reflexivity|split; [|split; [exact Henc|]]]);
      cbn [stored_box stored_rotation dict_set_landmarks fields];
      try (f_equal; apply (stored_box_dict_with_box _ d));
      try apply stored_rotation_dict_with_box.
  - injection Hbox as <-.
    rewrite (rotate_landmarks_rect _ _ _ _ Hface Hrec).
    unfold result_record; cbn [fst snd]. rewrite lookup_insert_eq.
    exists (ORect (corrected_rectangle r M)), (rect_box (corrected_rectangle r M)).
    split; [reflexivity|]. split; [reflexivity|].
    split; [|reflexivity]. apply rect_corners_enclosing.
Qed.

(** C1, counterexample: a face whose width, 2^70, has no 32-bit
    representation.  Building the array of corners raises OverflowError;
    nothing is written: the record keeps its box and its rotation field,
    which is 7 and not 0. *)
Lemma rotate_landmarks_wide_box_overflows :
  rotate_landmarks 1%positive shift5 (store_of (ODetectedFace face_huge)) =
    (store_of (ODetectedFace face_huge), Raises OverflowError) ∧
  stored_rotation (ODetectedFace face_huge) = Some 7.
Proof.
  split; [|reflexivity].
  apply (rotate_landmarks_overflow _ _ _ (ODetectedFace face_huge)); vm_compute; reflexivity.
Qed.

(** C5: when the input is none of the three recognized shapes the call
    raises ValueError (the unsupported-type error), returns nothing, and
    leaves the whole store as it was: the error precedes every write. *)
Theorem rotate_landmarks_unsupported (σ : heap) face M :
  recognized (σ !! face) = false →
  rotate_landmarks face M σ = (σ, Raises ValueError).
Proof.
  intros H.
  unfold rotate_landmarks, mbind, py_bind, bind, deref, lift.
  destruct (σ !! face) as [[f|d|r|t]|]; try discriminate H; reflexivity.
Qed.


(** ** rotate_landmarks: side effects *)

(** C4, amended: the side effects per shape, for a record whose box
    corners and landmarks have 32-bit representations.  A DetectedFace is
    mutated in place and the same object is returned; an alignment mapping
    is likewise mutated in place and returned, no copy is made: in both
    cases the store changes at the reference of the input only, where the
    record now has r = 0, and that reference is the result.  For a bare
    rectangle a new rectangle is constructed and returned and the input is
    not mutated; any other input raises ValueError and the store is
    unchanged.  The two mutable shapes are taken with at least two
    landmarks, the case in which the call returns.  This holds for every
    implementation of the two OpenCV calls. *)
Theorem rotate_landmarks_side_effects `{K : OpenCV} (σ : heap) face M o :
  σ !! face = Some o →
  record_fits o = true →
  match o with
  | ODetectedFace f =>
      (2 ≤ length (landmarksXY f))%nat →
      ∃ f',
        rotate_landmarks face M σ = (<[face := ODetectedFace f']> σ, Returns face) ∧
        face_r f' = 0
  | ODict d =>
      (2 ≤ length (default [] (landmarks_entry d)))%nat →
      ∃ d',
        rotate_landmarks face M σ = (<[face := ODict d']> σ, Returns face) ∧
        fields d' !! "r" = Some 0
  | ORect r =>
      ∃ new r',
        rotate_landmarks face M σ = (<[new := ORect r']> σ, Returns new) ∧
        σ !! new = None ∧
        new ≠ face ∧
        (<[new := ORect r']> σ) !! face = Some (ORect r)
  | OOther _ => rotate_landmarks face M σ = (σ, Raises ValueError)
  end.
Proof.
  intros Hface Hrec. destruct o as [f|d|r|t].
  - intros Hlen. rewrite (rotate_landmarks_face _ _ _ _ Hface Hrec). cbv zeta.
    destruct (landmarksXY f) as [|p [|p' l]]; cbn in Hlen; try lia.
    eexists. split; reflexivity.
  - intros Hlen. rewrite (rotate_landmarks_dict _ _ _ _ Hface Hrec). cbv zeta.
    destruct (default [] (landmarks_entry d)) as [|p [|p' l]]; cbn in Hlen; try lia.
    eexists. split; [reflexivity|].
    cbn [dict_set_landmarks fields]. apply stored_rotation_dict_with_box.
  - rewrite (rotate_landmarks_rect _ _ _ _ Hface Hrec). cbv zeta.
    pose proof (is_fresh (dom σ)) as Hfresh.
    apply not_elem_of_dom in Hfresh.
    assert (Hne : fresh (dom σ) ≠ face) by (intros E; rewrite E in Hfresh; congruence).
    eexists. eexists. split; [reflexivity|]. split; [exact Hfresh|]. split; [exact Hne|].
    rewrite lookup_insert_ne by exact Hne. exact Hface.
  - unfold rotate_landmarks, mbind, py_bind, bind, deref, lift.
    rewrite Hface. reflexivity.
Qed.

Lemma extent_fits_check (pts : list point) :
  forallb (λ p, forallb (λ q, fits_int32b (fst p - fst q) && fits_int32b (snd p - snd q)) pts) pts = true →
  extent_fits pts.
Proof.
  intros H p q Hp Hq. rewrite forallb_forall in H.
  apply list_elem_of_In in Hp, Hq.
  specialize (H p Hp). rewrite forallb_forall in H. specialize (H q Hq).
  unfold fits_int32b, fits_int32 in *. lia.
Qed.

(** An instance of the statement, its hypotheses checked by computation. *)
Lemma rotate_landmarks_stores_enclosing_box_witness :
  store_of (ODetectedFace face2) !! 1%positive = Some (ODetectedFace face2) ∧
  stored_box (ODetectedFace face2) = Some (mkBox 10 20 30 40) ∧
  record_fits (ODetectedFace face2) = true ∧
  extent_fits (transformed_corners (mkBox 10 20 30 40) shift5) ∧
  ∃ o' b',
    result_record (ODetectedFace face2) 1%positive
      (rotate_landmarks 1%positive shift5 (store_of (ODetectedFace face2))) = Some o' ∧
    stored_box o' = Some b' ∧
    minimal_enclosing b' (transformed_corners (mkBox 10 20 30 40) shift5) ∧
    stored_rotation o' = Some 0.
Proof.
  assert (H1 : store_of (ODetectedFace face2) !! 1%positive = Some (ODetectedFace face2))
    by (vm_compute; reflexivity).
  assert (H2 : stored_box (ODetectedFace face2) = Some (mkBox 10 20 30 40))
    by reflexivity.
  assert (H3 : record_fits (ODetectedFace face2) = true) by (vm_compute; reflexivity).
  assert (H4 : extent_fits (transformed_corners (mkBox 10 20 30 40) shift5))
    by (apply extent_fits_check; vm_compute; reflexivity).
  split; [exact H1|]. split; [exact H2|]. split; [exact H3|]. split; [exact H4|].
  exact (rotate_landmarks_stores_enclosing_box _ _ _ _ _ H1 H2 H3 H4).
Defined.

(** An instance of the statement, its hypotheses checked by computation. *)
Lemma rotate_landmarks_unsupported_witness :
  recognized (store_of (OOther "int") !! 1%positive) = false ∧
  rotate_landmarks 1%positive shift5 (store_of (OOther "int")) =
    (store_of (OOther "int"), Raises ValueError).
Proof.
  assert (H : recognized (store_of (OOther "int") !! 1%positive) = false)
    by (vm_compute; reflexivity).
  split; [exact H|]. exact (rotate_landmarks_unsupported _ _ _ H).
Defined.


(** An instance of the statement, its hypotheses checked by computation. *)
Lemma rotate_landmarks_side_effects_witness :
  store_of (ODict dict0) !! 1%positive = Some (ODict dict0) ∧
  record_fits (ODict dict0) = true ∧
  (2 ≤ length (default [] (landmarks_entry dict0)))%nat ∧
  ∃ d',
    rotate_landmarks 1%positive shift5 (store_of (ODict dict0)) =
      (<[1%positive := ODict d']> (store_of (ODict dict0)), Returns 1%positive) ∧
    fields d' !! "r" = Some 0.
Proof.
  assert (H1 : store_of (ODict dict0) !! 1%positive = Some (ODict dict0))
    by (vm_compute; reflexivity).
  assert (H2 : record_fits (ODict dict0) = true) by (vm_compute; reflexivity).
  assert (H3 : (2 ≤ length (default [] (landmarks_entry dict0)))%nat) by (cbn; lia).
  split; [exact H1|]. split; [exact H2|]. split; [exact H3|].
  exact (rotate_landmarks_side_effects _ _ shift5 _ H1 H2 H3).
Defined.

(** C4, counterexample: called on a mapping, the function returns the very
    object it was given, and that object has changed: the caller's mapping
    is not left as it was. *)
Lemma rotate_landmarks_mapping_not_copied :
  ∃ σ',
    rotate_landmarks 1%positive shift5 (store_of (ODict dict0)) = (σ', Returns 1%positive) ∧
    σ' !! 1%positive ≠ store_of (ODict dict0) !! 1%positive.
Proof.
  eexists. split; [vm_compute; reflexivity|].
  intros E.
  apply (f_equal (λ o, match o with Some (ODict d) => dict_get d "x" | _ => 0 end)) in E.
  revert E. vm_compute. discriminate.
Qed.

(** C3: the code on a face without landmarks and the identity matrix.  The
    box (10, 20, 30, 40) is written back unchanged with r = 0, yet the call
    raises UnboundLocalError where the specification has it return the
    record. *)
Theorem rotate_landmarks_identity_no_landmarks :
  rotate_landmarks 1%positive identity_matrix (store_of (ODetectedFace face0)) =
    (store_of (ODetectedFace (mkDetectedFace 10 20 30 40 0 [])),
     Raises UnboundLocalError).
Proof. vm_compute. reflexivity. Qed.

(** ** rotate_landmarks: right-angle rotations

    Rounding a rational to the nearest integer, and the affine maps of the
    three quarter turns and their inverses. *)

Ltac qlra :=
  change (inject_Z 1) with 1%Q in *;
  change (inject_Z (-1)) with (-1)%Q in *;
  repeat match goal with
         | |- context [inject_Z ?z] =>
             let v := fresh "v" in set (v := inject_Z z) in *; clearbody v
         | H : context [inject_Z ?z] |- _ =>
             let v := fresh "v" in set (v := inject_Z z) in *; clearbody v
         end;
  lra.

Lemma cvRound_near (q : Q) (a : Z) :
  (inject_Z a - (1 # 2) <= q)%Q → (q <= inject_Z a + (1 # 2))%Q →
  Z.abs (cvRound q - a) ≤ 1.
Proof.
  intros Hlo Hhi. destruct (cvRound_bounds q) as [H1 H2].
  assert (Hu : (inject_Z (cvRound q) <= inject_Z (a + 1))%Q).
  { rewrite inject_Z_plus. qlra. }
  assert (Hl : (inject_Z a <= inject_Z (cvRound q + 1))%Q).
  { rewrite inject_Z_plus. qlra. }
  rewrite <- Zle_Qle in Hu, Hl. lia.
Qed.

Lemma cvRound_add_Z (a k : Z) (t : Q) :
  (t == inject_Z k)%Q → cvRound (inject_Z a + t) = a + k.
Proof.
  intros Ht. rewrite Ht, <- inject_Z_plus. apply cvRound_inject_Z.
Qed.

(** Magnitude of a rounded value. *)
Lemma cvRound_range (q : Q) (lo hi : Z) :
  (inject_Z lo <= q)%Q → (q <= inject_Z hi)%Q → lo ≤ cvRound q ≤ hi.
Proof.
  intros Hlo Hhi. destruct (cvRound_bounds q) as [H1 H2].
  split.
  - destruct (Z_lt_le_dec (cvRound q) lo) as [Hlt|]; [|assumption].
    exfalso. assert (Hc : cvRound q + 1 ≤ lo) by lia.
    rewrite Zle_Qle, inject_Z_plus in Hc. qlra.
  - destruct (Z_lt_le_dec hi (cvRound q)) as [Hlt|]; [|assumption].
    exfalso. assert (Hc : hi + 1 ≤ cvRound q) by lia.
    rewrite Zle_Qle, inject_Z_plus in Hc. qlra.
Qed.

Lemma transform_point_eq (M : matrix) (p : point) (qx qy : Q) :
  (m00 M * inject_Z (fst p) + m01 M * inject_Z (snd p) + m02 M == qx)%Q →
  (m10 M * inject_Z (fst p) + m11 M * inject_Z (snd p) + m12 M == qy)%Q →
  transform_point M p = (cvRound qx, cvRound qy).
Proof.
  intros Hx Hy. unfold transform_point. cbv zeta. rewrite Hx, Hy. reflexivity.
Qed.

Ltac solve_affine :=
  apply transform_point_eq;
  unfold invertAffineTransform, quarter_turn_matrix, identity_matrix;
  cbn [m00 m01 m02 m10 m11 m12];
  try (set (D := if Qis_zero _ then _ else _); vm_compute in D; subst D);
  ring.

Lemma forward_turn (a : quarter_turn) (tx ty : Q) (p : point) :
  transform_point (quarter_turn_matrix a tx ty) p =
    match a with
    | Turn90 => (cvRound (inject_Z (snd p) + tx), cvRound (- inject_Z (fst p) + ty))
    | Turn180 => (cvRound (- inject_Z (fst p) + tx), cvRound (- inject_Z (snd p) + ty))
    | Turn270 => (cvRound (- inject_Z (snd p) + tx), cvRound (inject_Z (fst p) + ty))
    end%Q.
Proof. destruct a; solve_affine. Qed.

Lemma backward_turn (a : quarter_turn) (tx ty : Q) (p : point) :
  transform_point (invertAffineTransform (quarter_turn_matrix a tx ty)) p =
    match a with
    | Turn90 => (cvRound (- inject_Z (snd p) + ty), cvRound (inject_Z (fst p) - tx))
    | Turn180 => (cvRound (- inject_Z (fst p) + tx), cvRound (- inject_Z (snd p) + ty))
    | Turn270 => (cvRound (inject_Z (snd p) - ty), cvRound (- inject_Z (fst p) + tx))
    end%Q.
Proof. destruct a; solve_affine. Qed.

Lemma identity_transform (p : point) :
  transform_point (invertAffineTransform identity_matrix) p = p.
Proof.
  destruct p as [x y].
  rewrite (transform_point_eq _ _ (inject_Z x) (inject_Z y)).
  - rewrite !cvRound_inject_Z. reflexivity.
  - unfold invertAffineTransform, identity_matrix. cbn [m00 m01 m02 m10 m11 m12 fst snd].
    set (D := if Qis_zero _ then _ else _); vm_compute in D; subst D. ring.
  - unfold invertAffineTransform, identity_matrix. cbn [m00 m01 m02 m10 m11 m12 fst snd].
    set (D := if Qis_zero _ then _ else _); vm_compute in D; subst D. ring.
Qed.

(** *** One coordinate there and back *)

Section RoundTrip1D.
Variables (a : Z) (t : Q).

Lemma near_plus :
  Z.abs (cvRound (inject_Z (cvRound (inject_Z a + t)) - t) - a) ≤ 1.
Proof.
  destruct (cvRound_bounds (inject_Z a + t)) as [H1 H2].
  apply cvRound_near; qlra.
Qed.

Lemma near_minus :
  Z.abs (cvRound (- inject_Z (cvRound (- inject_Z a + t)) + t) - a) ≤ 1.
Proof.
  destruct (cvRound_bounds (- inject_Z a + t)) as [H1 H2].
  apply cvRound_near; qlra.
Qed.

Lemma exact_plus : integral t → cvRound (inject_Z (cvRound (inject_Z a + t)) - t) = a.
Proof.
  intros [k Hk]. rewrite (cvRound_add_Z a k t Hk).
  assert (E : (inject_Z (a + k) - t == inject_Z a)%Q).
  { rewrite Hk, inject_Z_plus. ring. }
  rewrite E. apply cvRound_inject_Z.
Qed.

Lemma exact_minus : integral t → cvRound (- inject_Z (cvRound (- inject_Z a + t)) + t) = a.
Proof.
  intros [k Hk].
  assert (E1 : (- inject_Z a + t == inject_Z (- a + k))%Q).
  { rewrite Hk, inject_Z_plus, inject_Z_opp. ring. }
  rewrite E1, cvRound_inject_Z.
  assert (E2 : (- inject_Z (- a + k) + t == inject_Z a)%Q).
  { rewrite Hk, inject_Z_plus, inject_Z_opp. ring. }
  rewrite E2. apply cvRound_inject_Z.
Qed.

Variables (lo hi A B : Z).
Hypothesis Ha : lo ≤ a ≤ hi.
Hypothesis Ht : (inject_Z A <= t)%Q ∧ (t <= inject_Z B)%Q.

Lemma range_plus : lo + A ≤ cvRound (inject_Z a + t) ≤ hi + B.
Proof.
  destruct Ha as [Ha1 Ha2], Ht as [Ht1 Ht2]. rewrite Zle_Qle in Ha1, Ha2.
  apply cvRound_range; rewrite inject_Z_plus; qlra.
Qed.

Lemma range_minus : - hi + A ≤ cvRound (- inject_Z a + t) ≤ - lo + B.
Proof.
  destruct Ha as [Ha1 Ha2], Ht as [Ht1 Ht2]. rewrite Zle_Qle in Ha1, Ha2.
  apply cvRound_range; rewrite inject_Z_plus, inject_Z_opp; qlra.
Qed.

Lemma range_sub : lo - B ≤ cvRound (inject_Z a - t) ≤ hi - A.
Proof.
  destruct Ha as [Ha1 Ha2], Ht as [Ht1 Ht2]. rewrite Zle_Qle in Ha1, Ha2.
  unfold Z.sub. apply cvRound_range; rewrite inject_Z_plus, inject_Z_opp; qlra.
Qed.
End RoundTrip1D.

(** *** The four corners *)

Lemma min_aabb (a b : Z) : Z.min (Z.min (Z.min a a) b) b = Z.min a b.
Proof. lia. Qed.
Lemma min_abba (a b : Z) : Z.min (Z.min (Z.min a b) b) a = Z.min a b.
Proof. lia. Qed.
Lemma max_aabb (a b : Z) : Z.max (Z.max (Z.max a a) b) b = Z.max a b.
Proof. lia. Qed.
Lemma max_abba (a b : Z) : Z.max (Z.max (Z.max a b) b) a = Z.max a b.
Proof. lia. Qed.

Ltac tidy_minmax := rewrite ?min_aabb, ?min_abba, ?max_aabb, ?max_abba.












Lemma corrected_box_sides (b : Box) (M : matrix) :
  corrected_box b M =
    mkBox (corrected_sides b M).1.1.1 (corrected_sides b M).1.1.2
          (np_int32 ((corrected_sides b M).1.2 - (corrected_sides b M).1.1.1))
          (np_int32 ((corrected_sides b M).2 - (corrected_sides b M).1.1.2)).
Proof. reflexivity. Qed.


Lemma stored_box_face (b : Box) (f : DetectedFace) :
  stored_box (ODetectedFace (face_with_box b f)) = Some b.
Proof. destruct b; reflexivity. Qed.

Lemma stored_box_face_landmarks (b : Box) (f : DetectedFace) (l : list point) :
  stored_box (ODetectedFace (set_landmarksXY l (face_with_box b f))) = Some b.
Proof. destruct b; reflexivity. Qed.

Lemma stored_box_dict (b : Box) (d : alignment) :
  stored_box (ODict (dict_with_box b d)) = Some b.
Proof. cbn [stored_box]. f_equal. apply (stored_box_dict_with_box b d). Qed.

Lemma stored_box_dict_landmarks (b : Box) (d : alignment) (l : list point) :
  stored_box (ODict (dict_set_landmarks l (dict_with_box b d))) = Some b.
Proof. cbn [stored_box]. f_equal. apply (stored_box_dict_with_box b d). Qed.

Lemma stored_box_rect (l t r b : Z) :
  stored_box (ORect (mkRectangle l t r b)) = Some (mkBox l t (r - l) (b - t)).
Proof. reflexivity. Qed.

Lemma Some_eq {A} (x y : A) : Some x = Some y → x = y.
Proof. congruence. Qed.

(** The record that holds the result, in terms of the sides of lines
    169-172: a rectangle keeps the sides, the two other shapes store the
    32-bit differences. *)
Lemma rotate_landmarks_result_box `{K : OpenCV} (σ : heap) face M (o : pyobj) (b : Box) :
  σ !! face = Some o →
  stored_box o = Some b →
  record_fits o = true →
  ∃ o',
    result_record o face (rotate_landmarks face M σ) = Some o' ∧
    stored_box o' =
      Some (let s := corrected_sides b M in
            match o with
            | ORect _ => mkBox s.1.1.1 s.1.1.2 (s.1.2 - s.1.1.1) (s.2 - s.1.1.2)
            | _ => corrected_box b M
            end) ∧
    stored_rotation o' = match o with ORect _ => None | _ => Some 0 end.
Proof.
  intros Hface Hbox Hrec. destruct o as [f|d|r|t].
  - apply Some_eq in Hbox. change (face_box f = b) in Hbox.
    rewrite (rotate_landmarks_face _ _ _ _ Hface Hrec). cbv zeta. rewrite Hbox.
    destruct (landmarksXY f) as [|p [|p' l]]; unfold result_record; cbn [fst snd];
      rewrite lookup_insert_eq; eexists; (split; [reflexivity|]).
    + split; [apply stored_box_face|reflexivity].
    + split; [apply stored_box_face|reflexivity].
    + split; [apply stored_box_face_landmarks|reflexivity].
  - apply Some_eq in Hbox. change (dict_box d = b) in Hbox.
    rewrite (rotate_landmarks_dict _ _ _ _ Hface Hrec). cbv zeta. rewrite Hbox.
    destruct (default [] (landmarks_entry d)) as [|p [|p' l]]; unfold result_record;
      cbn [fst snd]; rewrite lookup_insert_eq; eexists; (split; [reflexivity|]).
    + split; [apply stored_box_dict|apply stored_rotation_dict_with_box].
    + split; [apply stored_box_dict|apply stored_rotation_dict_with_box].
    + split; [apply stored_box_dict_landmarks|apply stored_rotation_dict_with_box].
  - apply Some_eq in Hbox.
    change (mkBox (left r) (top r) (right r - left r) (bottom r - top r) = b) in Hbox.
    rewrite (rotate_landmarks_rect _ _ _ _ Hface Hrec).
    unfold result_record; cbn [fst snd]. rewrite lookup_insert_eq.
    unfold corrected_rectangle. rewrite Hbox.
    eexists. split; [reflexivity|]. split; [apply stored_box_rect|reflexivity].
  - discriminate Hbox.
Qed.

Lemma record_fits_intro (o : pyobj) (b : Box) :
  stored_box o = Some b →
  points_fit (box_corners b) = true →
  points_fit (stored_landmarks o) = true →
  record_fits o = true.
Proof. intros Hb Hc Hl. unfold record_fits. rewrite Hb, Hc, Hl. reflexivity. Qed.

Lemma corners_fit (x y w h : Z) :
  fits_int32 x → fits_int32 y → fits_int32 (x + w) → fits_int32 (y + h) →
  points_fit (box_corners (mkBox x y w h)) = true.
Proof.
  intros Hx Hy Hx1 Hy1. unfold box_corners, corners, points_fit.
  cbn [box_x box_y box_w box_h forallb fst snd].
  apply fits_int32b_true in Hx, Hy, Hx1, Hy1. rewrite Hx, Hy, Hx1, Hy1. reflexivity.
Qed.



(** *** The identity matrix *)

Lemma identity_sides (x y w h : Z) :
  0 ≤ w → 0 ≤ h →
  fits_int32 x → fits_int32 y → fits_int32 (x + w) → fits_int32 (y + h) →
  corrected_sides (mkBox x y w h) identity_matrix = (x, y, x + w, y + h).
Proof.
  intros Hw Hh Hx Hy Hx1 Hy1.
  unfold corrected_sides, transformed_corners, box_corners, corners,
    cv2_transform, astype_int32.
  cbn [map fold_left hd tail fst snd box_x box_y box_w box_h
       cv_transform_point cv_invertAffineTransform exact_arithmetic].
  rewrite !identity_transform. cbn [fst snd].
  rewrite ?(saturate_cast_fits x), ?(saturate_cast_fits y), ?(saturate_cast_fits (x + w)),
    ?(saturate_cast_fits (y + h)) by assumption.
  tidy_minmax.
  rewrite (Z.min_l x (x + w)), (Z.max_r x (x + w)), (Z.min_l y (y + h)),
    (Z.max_r y (y + h)) by lia.
  reflexivity.
Qed.

(** The identity matrix leaves a box that fits 32 bits as it is. *)
Lemma identity_fixed_point (b : Box) :
  0 ≤ box_w b → 0 ≤ box_h b →
  fits_int32 (box_x b) → fits_int32 (box_y b) →
  fits_int32 (box_x b + box_w b) → fits_int32 (box_y b + box_h b) →
  fits_int32 (box_w b) → fits_int32 (box_h b) →
  corrected_box b identity_matrix = b.
Proof.
  intros Hw Hh Hx Hy Hx1 Hy1 Hfw Hfh. destruct b as [x y w h].
  cbn [box_x box_y box_w box_h] in *.
  rewrite corrected_box_sides, identity_sides by assumption. cbn [fst snd].
  rewrite !Z.add_simpl_l, (np_int32_fits w), (np_int32_fits h) by assumption.
  reflexivity.
Qed.

Lemma identity_rectangle (r : rectangle) :
  left r ≤ right r → top r ≤ bottom r →
  fits_int32 (left r) → fits_int32 (top r) →
  fits_int32 (right r) → fits_int32 (bottom r) →
  corrected_rectangle r identity_matrix = r.
Proof.
  intros Hw Hh Hl Ht Hr Hb. destruct r as [l t r b].
  cbn [left top right bottom] in *. unfold corrected_rectangle.
  cbn [left top right bottom].
  rewrite identity_sides; rewrite ?add_sub_cancel; try assumption; try lia.
  reflexivity.
Qed.

(** With the identity matrix the record keeps its box and its rotation
    field becomes 0, for each of the three shapes, as long as the box is
    within the pixel range and the landmarks have 32-bit representations.
    The record is read from the store: whether the call also returns it
    is the matter of the landmarks. *)
Lemma rotate_landmarks_identity_keeps_box (σ : heap) face (o : pyobj) (b : Box) :
  σ !! face = Some o →
  stored_box o = Some b →
  points_fit (stored_landmarks o) = true →
  0 ≤ box_w b → 0 ≤ box_h b → box_in_range b →
  ∃ o',
    result_record o face (rotate_landmarks face identity_matrix σ) = Some o' ∧
    stored_box o' = Some b ∧
    stored_rotation o' = match o with ORect _ => None | _ => Some 0 end.
Proof.
  intros Hface Hbox Hlm Hw Hh (Hx0 & Hy0 & Hx1 & Hy1).
  unfold pixel_range in *. change (2 ^ 29) with 536870912 in *.
  assert (Hfix : corrected_box b identity_matrix = b).
  { apply identity_fixed_point; unfold fits_int32, int32_min, int32_max; lia. }
  assert (Hrec : record_fits o = true).
  { apply (record_fits_intro o b Hbox); [|exact Hlm]. destruct b as [x y w h].
    cbn [box_x box_y box_w box_h] in *.
    apply corners_fit; unfold fits_int32, int32_min, int32_max; lia. }
  destruct (rotate_landmarks_result_box σ face identity_matrix o b Hface Hbox Hrec)
    as (o' & Hres & Hb & Hr).
  exists o'. split; [exact Hres|]. split; [|exact Hr]. rewrite Hb. cbv zeta.
  destruct o; try (rewrite Hfix; reflexivity).
  destruct b as [x y w h]. cbn [box_x box_y box_w box_h] in *.
  rewrite identity_sides by (unfold fits_int32, int32_min, int32_max; lia).
  cbn [fst snd]. rewrite !Z.add_simpl_l. reflexivity.
Qed.

(** The call returns the record, box unchanged, when the defect of the
    missing landmarks does not strike: here on a bare rectangle. *)
Example rotate_landmarks_identity_rectangle :
  ∃ new,
    rotate_landmarks 1%positive identity_matrix (store_of (ORect rect90)) =
      (<[new := ORect rect90]> (store_of (ORect rect90)), Returns new).
Proof. exists 2%positive. vm_compute. reflexivity. Qed.

Lemma offset_range_check (t : Q) :
  Qle_bool (inject_Z (- 2 ^ 29)) t && Qle_bool t (inject_Z (2 ^ 29)) = true →
  offset_range t.
Proof.
  intros H. apply andb_prop in H as [H1 H2].
  split; apply Qle_bool_iff; assumption.
Qed.


(** ** add_alpha_channel *)

(** C8: [add_alpha_channel] raises AssertionError exactly when the
    intensity lies outside the closed interval from 0 to 100.  The check is
    the first statement: outside the interval the error is the result for
    every image, whatever its planes, and inside it no such error is
    raised. *)
Theorem add_alpha_channel_assertion (image : Image) (intensity : Z) :
  add_alpha_channel image intensity = Raises AssertionError ↔
  ¬ (0 ≤ intensity ≤ 100).
Proof.
  unfold add_alpha_channel.
  destruct ((0 <=? intensity) && (intensity <=? 100)) eqn:E; cbn [negb].
  - split; [|lia]. cbv zeta.
    destruct (cv2_split (map (map float32_of_uint8) image))
      as [|b [|g [|r [|a rest]]]]; discriminate.
  - split; [lia|reflexivity].
Qed.













(** ** camel_case_split *)

Lemma append_cons (c : ascii) (s t : string) : String c s +:+ t = String c (s +:+ t).
Proof. reflexivity. Qed.

Lemma append_nil (t : string) : "" +:+ t = t.
Proof. reflexivity. Qed.

Lemma append_assoc (s1 s2 s3 : string) : (s1 +:+ s2) +:+ s3 = s1 +:+ (s2 +:+ s3).
Proof.
  induction s1 as [|c s1 IH]; [reflexivity|].
  rewrite !append_cons. f_equal. exact IH.
Qed.

Lemma append_empty_r (s : string) : s +:+ "" = s.
Proof.
  induction s as [|c s IH]; [reflexivity|].
  rewrite append_cons. f_equal. exact IH.
Qed.

Lemma append_nonempty (s : string) (c : ascii) : s +:+ String c "" ≠ "".
Proof. destruct s; discriminate. Qed.

Lemma boundary_end (c : ascii) : boundary c "" = true.
Proof. reflexivity. Qed.

Lemma finditer_joined (s acc : string) :
  s ≠ "" → has_newline s = false → joined (finditer acc s) = acc +:+ s.
Proof.
  revert acc. induction s as [|c rest IH]; intros acc Hne Hnl; [congruence|].
  cbn [has_newline] in Hnl. apply orb_false_elim in Hnl as [Hc Hrest].
  cbn [finditer]. rewrite Hc.
  assert (Hstep : (acc +:+ String c "") +:+ rest = acc +:+ String c rest).
  { rewrite append_assoc. reflexivity. }
  destruct (boundary c rest) eqn:Hb.
  - cbn [joined fold_right]. destruct rest as [|d rest'].
    + cbn [finditer fold_right]. rewrite append_empty_r. reflexivity.
    + change (fold_right String.append "" (finditer "" (String d rest')))
        with (joined (finditer "" (String d rest'))).
      rewrite IH by (assumption || discriminate). rewrite append_nil. exact Hstep.
  - destruct rest as [|d rest']; [discriminate Hb|].
    rewrite IH by (assumption || discriminate). exact Hstep.
Qed.

Lemma finditer_nonempty (s acc piece : string) :
  piece ∈ finditer acc s → piece ≠ "".
Proof.
  revert acc. induction s as [|c rest IH]; intros acc Hin; cbn [finditer] in Hin.
  - apply elem_of_nil in Hin. contradiction.
  - destruct (Ascii.eqb c newline); [exact (IH _ Hin)|].
    destruct (boundary c rest).
    + apply elem_of_cons in Hin as [-> | Hin]; [apply append_nonempty|exact (IH _ Hin)].
    + exact (IH _ Hin).
Qed.

(** C10, amended: for every string without a newline, the pieces returned
    by [camel_case_split], put together in order, are the string itself;
    no piece is empty, and the empty string gives the empty list. *)
Theorem camel_case_split_partition (identifier : string) :
  has_newline identifier = false →
  joined (camel_case_split identifier) = identifier ∧
  (∀ piece, piece ∈ camel_case_split identifier → piece ≠ "") ∧
  (identifier = "" → camel_case_split identifier = []).
Proof.
  intros Hnl. unfold camel_case_split. split; [|split].
  - destruct identifier as [|c rest]; [reflexivity|].
    rewrite finditer_joined by (assumption || discriminate). reflexivity.
  - intros piece. apply finditer_nonempty.
  - intros ->. reflexivity.
Qed.

(** An instance of the statement, its hypotheses checked by computation. *)
Lemma camel_case_split_partition_witness :
  has_newline "camelCaseXMLParser" = false ∧
  joined (camel_case_split "camelCaseXMLParser") = "camelCaseXMLParser" ∧
  (∀ piece, piece ∈ camel_case_split "camelCaseXMLParser" → piece ≠ "") ∧
  ("camelCaseXMLParser" = "" → camel_case_split "camelCaseXMLParser" = []).
Proof.
  assert (H : has_newline "camelCaseXMLParser" = false) by reflexivity.
  split; [exact H|]. exact (camel_case_split_partition _ H).
Defined.

Example camel_case_split_example :
  camel_case_split "camelCaseXMLParser" = ["camel"; "Case"; "XML"; "Parser"].
Proof. reflexivity. Qed.

(** C10, counterexample: the string made of the letter a and a newline is
    split into the single piece a; the newline is lost, so the pieces do
    not add up to the input. *)
Lemma camel_case_split_drops_newline :
  camel_case_split (String "a" (String newline "")) = ["a"] ∧
  joined (camel_case_split (String "a" (String newline ""))) ≠
    String "a" (String newline "").
Proof. split; [reflexivity|]. cbn. discriminate. Qed.

(** ** get_image_paths *)

Lemma string_leb_trans (s1 s2 s3 : string) :
  String.leb s1 s2 = true → String.leb s2 s3 = true → String.leb s1 s3 = true.
Proof.
  unfold String.leb. revert s2 s3.
  induction s1 as [|c1 r1 IH]; intros s2 s3 H12 H23.
  - destruct s3; reflexivity.
  - destruct s2 as [|c2 r2]; [discriminate H12|].
    destruct s3 as [|c3 r3]; [discriminate H23|].
    cbn [String.compare] in *. unfold Ascii.compare in *.
    destruct (N.compare_spec (N_of_ascii c1) (N_of_ascii c2)) as [E12|L12|G12];
      [|clear H12|discriminate H12].
    + rewrite E12. destruct (N.compare (N_of_ascii c2) (N_of_ascii c3));
        [exact (IH _ _ H12 H23)|reflexivity|discriminate H23].
    + destruct (N.compare_spec (N_of_ascii c2) (N_of_ascii c3)) as [E23|L23|G23];
        [| |discriminate H23].
      * rewrite <- E23. apply N.compare_lt_iff in L12. rewrite L12. reflexivity.
      * assert (L13 : (N_of_ascii c1 < N_of_ascii c3)%N) by lia.
        apply N.compare_lt_iff in L13. rewrite L13. reflexivity.
Qed.

Lemma name_le_trans (a b c : DirEntry) : name_le a b → name_le b c → name_le a c.
Proof. unfold name_le. apply string_leb_trans. Qed.

Lemma name_le_total (a b : DirEntry) : name_le a b ∨ name_le b a.
Proof. unfold name_le. apply String.leb_total. Qed.

Lemma insert_by_name_perm (e : DirEntry) (l : list DirEntry) :
  insert_by_name e l ≡ₚ e :: l.
Proof.
  induction l as [|e' l IH]; cbn [insert_by_name]; [reflexivity|].
  destruct (String.leb (name e) (name e')); [reflexivity|].
  rewrite IH. apply perm_swap.
Qed.

Lemma sorted_by_name_perm (l : list DirEntry) : sorted_by_name l ≡ₚ l.
Proof.
  induction l as [|e l IH]; [reflexivity|].
  unfold sorted_by_name in *. cbn [fold_right].
  rewrite insert_by_name_perm, IH. reflexivity.
Qed.

Lemma insert_by_name_sorted (e : DirEntry) (l : list DirEntry) :
  StronglySorted name_le l → StronglySorted name_le (insert_by_name e l).
Proof.
  induction 1 as [|e' l Hl IH Hall]; cbn [insert_by_name].
  - constructor; constructor.
  - destruct (String.leb (name e) (name e')) eqn:E.
    + constructor; [constructor; assumption|].
      constructor; [exact E|].
      eapply List.Forall_impl; [|exact Hall]. intros x Hx. exact (name_le_trans _ _ _ E Hx).
    + constructor; [exact IH|].
      assert (Hle : name_le e' e).
      { destruct (name_le_total e e') as [H|H]; [unfold name_le in H; congruence|exact H]. }
      rewrite (insert_by_name_perm e l). constructor; assumption.
Qed.

Lemma sorted_by_name_sorted (l : list DirEntry) : StronglySorted name_le (sorted_by_name l).
Proof.
  induction l as [|e l IH]; [constructor|].
  unfold sorted_by_name in *. cbn [fold_right]. apply insert_by_name_sorted. exact IH.
Qed.

Lemma filter_sorted (f : DirEntry → bool) (l : list DirEntry) :
  StronglySorted name_le l → StronglySorted name_le (List.filter f l).
Proof.
  induction 1 as [|e l Hl IH Hall]; cbn [List.filter]; [constructor|].
  destruct (f e); [|exact IH].
  constructor; [exact IH|].
  rewrite List.Forall_forall in *. intros x Hx. apply List.filter_In in Hx as [Hx _].
  exact (Hall x Hx).
Qed.

Lemma filter_perm (f : DirEntry → bool) (l l' : list DirEntry) :
  l ≡ₚ l' → List.filter f l ≡ₚ List.filter f l'.
Proof.
  induction 1 as [|x l l' _ IH|x y l|l l' l'' _ IH1 _ IH2]; cbn [List.filter].
  - reflexivity.
  - destruct (f x); [constructor|]; exact IH.
  - destruct (f x), (f y); try reflexivity. apply perm_swap.
  - etransitivity; eassumption.
Qed.

Lemma collect_images (l : list DirEntry) (acc : list string) :
  fold_left
    (λ dir_contents chkfile,
       if existsb (λ ext, endswith (lower (name chkfile)) ext) _image_extensions
       then dir_contents ++ [path chkfile]
       else dir_contents)
    l acc = acc ++ map path (List.filter image_entry l).
Proof.
  revert acc. induction l as [|e l IH]; intros acc; cbn [fold_left List.filter map].
  - rewrite app_nil_r. reflexivity.
  - rewrite IH. unfold image_entry at 2.
    destruct (existsb _ _); [|reflexivity].
    cbn [map]. rewrite <- app_assoc. reflexivity.
Qed.

Lemma length_append (s t : string) :
  String.length (s +:+ t) = (String.length s + String.length t)%nat.
Proof.
  induction s as [|c s IH]; [reflexivity|].
  rewrite append_cons. cbn [String.length]. rewrite IH. reflexivity.
Qed.

Lemma substring_full (s : string) : String.substring 0 (String.length s) s = s.
Proof.
  induction s as [|c s IH]; [reflexivity|].
  cbn [String.length String.substring]. rewrite IH. reflexivity.
Qed.

Lemma substring_split (s : string) (k : nat) :
  (k ≤ String.length s)%nat →
  s = String.substring 0 k s +:+ String.substring k (String.length s - k) s.
Proof.
  revert k. induction s as [|c s IH]; intros k Hk.
  - cbn [String.length] in Hk. replace k with 0%nat by lia. reflexivity.
  - destruct k as [|k].
    + change (String.substring 0 0 (String c s)) with EmptyString.
      rewrite append_nil, Nat.sub_0_r, substring_full. reflexivity.
    + cbn [String.length] in Hk |- *. cbn [String.substring Nat.sub].
      rewrite append_cons. f_equal. apply IH. lia.
Qed.

Lemma substring_append_r (stem ext : string) :
  String.substring (String.length stem) (String.length ext) (stem +:+ ext) = ext.
Proof.
  induction stem as [|c stem IH].
  - rewrite append_nil. cbn [String.length]. apply substring_full.
  - rewrite append_cons. cbn [String.length String.substring]. exact IH.
Qed.

Lemma endswith_spec (s ext : string) :
  endswith s ext = true ↔ ∃ stem, s = stem +:+ ext.
Proof.
  unfold endswith. split.
  - intros H. apply andb_prop in H as [Hlen Heq].
    apply Nat.leb_le in Hlen. apply String.eqb_eq in Heq.
    exists (String.substring 0 (String.length s - String.length ext) s).
    pose proof (substring_split s (String.length s - String.length ext)) as Hs.
    replace (String.length s - (String.length s - String.length ext))%nat
      with (String.length ext) in Hs by lia.
    rewrite Heq in Hs. apply Hs. lia.
  - intros [stem ->]. rewrite length_append.
    apply andb_true_intro. split; [apply Nat.leb_le; lia|].
    replace (String.length stem + String.length ext - String.length ext)%nat
      with (String.length stem) by lia.
    rewrite substring_append_r. apply String.eqb_refl.
Qed.

Lemma image_entry_spec (e : DirEntry) :
  image_entry e = true ↔ image_name (name e).
Proof.
  unfold image_entry, image_name. rewrite existsb_exists. split.
  - intros (ext & Hin & Hend). apply endswith_spec in Hend as [stem Hstem].
    exists ext, stem. split; [apply list_elem_of_In; exact Hin|exact Hstem].
  - intros (ext & stem & Hin & Hstem). exists ext.
    split; [apply list_elem_of_In; exact Hin|]. apply endswith_spec. eauto.
Qed.

(** The loop of lines 52-56 on a scan. *)
Lemma scan_lists_images {S : Type} (σ : S) (scan : outcome (list DirEntry)) :
  lists_images
    match scan with
    | Raises e => (σ, Raises e)
    | Returns scanned =>
        (σ, Returns
              (fold_left
                 (λ dir_contents chkfile,
                    if existsb (λ ext, endswith (lower (name chkfile)) ext) _image_extensions
                    then dir_contents ++ [path chkfile]
                    else dir_contents)
                 (sorted_by_name scanned) []))
    end σ scan.
Proof.
  destruct scan as [scanned|e]; [|reflexivity]. cbn [lists_images].
  rewrite collect_images. cbn [app].
  exists (List.filter image_entry (sorted_by_name scanned)).
  split; [reflexivity|]. split; [apply filter_perm, sorted_by_name_perm|].
  split; [apply filter_sorted, sorted_by_name_sorted|].
  intros e. rewrite list_elem_of_In, List.filter_In, <- !list_elem_of_In.
  rewrite (sorted_by_name_perm scanned).
  rewrite image_entry_spec. reflexivity.
Qed.

(** C9, amended: on every file system, when the directory exists
    [get_image_paths] returns the paths of exactly the entries that
    [os.scandir] yields for it, files or sub-directories alike, whose name
    ends, ignoring case, with one of .bmp .jpeg .jpg .png .tif .tiff, in
    ascending order of entry name, and the file system is as it was; an
    error of the scan, as for a path that names a file, is raised.  When
    the directory does not exist it is made with its parents, an error of
    that is raised, and the new directory is listed in the same way: the
    result is empty when the new directory has no entry. *)
Theorem get_image_paths_lists_images {S : Type} `{!FileSystem S}
    (directory : string) (σ : S) :
  if os_path_exists directory σ then
    lists_images (get_image_paths directory σ) σ (os_scandir directory σ)
  else
    match mkdir_parents directory σ with
    | (σ', Returns _) =>
        lists_images (get_image_paths directory σ) σ'
          (os_scandir (PosixPath directory) σ')
    | (σ', Raises e) => get_image_paths directory σ = (σ', Raises e)
    end.
Proof.
  unfold get_image_paths.
  destruct (os_path_exists directory σ); cbn [negb].
  - apply scan_lists_images.
  - unfold get_folder.
    destruct (mkdir_parents directory σ) as [σ' [u|e]]; [|reflexivity].
    apply scan_lists_images.
Qed.

(** C9, counterexample: a sub-directory called x.png is among the returned
    paths, so the result does not hold files only. *)
Lemma get_image_paths_returns_directory :
  ∃ e,
    os_scandir "d" fs_with_subdirectory = Returns [e] ∧
    is_dir e = true ∧
    image_name (name e) ∧
    snd (get_image_paths "d" fs_with_subdirectory) = Returns [path e].
Proof.
  exists (mkDirEntry "x.png" "d/x.png" true).
  split; [vm_compute; reflexivity|]. split; [reflexivity|].
  split; [|vm_compute; reflexivity].
  apply image_entry_spec. vm_compute. reflexivity.
Qed.

(** * Further properties

    Properties of the same functions beyond the ones above, and of
    [get_folder] and [set_system_verbosity]. *)

(** ** rotate_landmarks: one landmark, the rest of the store *)

Lemma stored_landmarks_face (b : Box) (f : DetectedFace) :
  stored_landmarks (ODetectedFace (face_with_box b f)) = landmarksXY f.
Proof. reflexivity. Qed.

Lemma stored_landmarks_dict (b : Box) (d : alignment) :
  stored_landmarks (ODict (dict_with_box b d)) = default [] (landmarks_entry d).
Proof. reflexivity. Qed.

(** X1.  A record with exactly one landmark, its coordinates with 32-bit
    representations: the single row collapses under [squeeze], so building
    the tuples fails.  The box and the rotation have been written by then;
    the landmark is still the old one.  This holds for every
    implementation of the two OpenCV calls. *)
Theorem rotate_landmarks_single_landmark `{K : OpenCV} (σ : heap) face M (o : pyobj)
    (b : Box) (p : point) :
  σ !! face = Some o →
  stored_landmarks o = [p] →
  stored_box o = Some b →
  record_fits o = true →
  ∃ σ' o',
    rotate_landmarks face M σ = (σ', Raises TypeError) ∧
    σ' !! face = Some o' ∧
    stored_box o' = Some (corrected_box b M) ∧
    stored_rotation o' = Some 0 ∧
    stored_landmarks o' = [p] ∧
    ∀ l, l ≠ face → σ' !! l = σ !! l.
Proof.
  intros Hface Hone Hbox Hfit. destruct o as [f|d|r|t]; try discriminate Hone.
  - apply Some_eq in Hbox. change (face_box f = b) in Hbox. subst b.
    cbn [stored_landmarks] in Hone.
    rewrite (rotate_landmarks_face _ _ _ _ Hface Hfit), Hone. cbv zeta.
    eexists. eexists. split; [reflexivity|]. rewrite lookup_insert_eq.
    split; [reflexivity|]. split; [apply stored_box_face|].
    split; [reflexivity|]. split; [rewrite stored_landmarks_face; exact Hone|].
    intros l Hl. apply lookup_insert_ne. congruence.
  - apply Some_eq in Hbox. change (dict_box d = b) in Hbox. subst b.
    cbn [stored_landmarks] in Hone.
    rewrite (rotate_landmarks_dict _ _ _ _ Hface Hfit), Hone. cbv zeta.
    eexists. eexists. split; [reflexivity|]. rewrite lookup_insert_eq.
    split; [reflexivity|]. split; [apply stored_box_dict|].
    split; [apply stored_rotation_dict_with_box|].
    split; [rewrite stored_landmarks_dict; exact Hone|].
    intros l Hl. apply lookup_insert_ne. congruence.
Qed.

(** A call that leaves the store as it is. *)
Lemma frame_of_unchanged (σ : heap) (face : loc) (e : exn) :
  let out : heap * outcome loc := (σ, Raises e) in
  (∀ l o, l ≠ face → σ !! l = Some o → fst out !! l = Some o) ∧
  (∀ l, is_Some (σ !! l) → is_Some (fst out !! l)) ∧
  (∀ l, σ !! l = None → is_Some (fst out !! l) →
        snd out = Returns l ∧ ∃ r r', σ !! face = Some (ORect r) ∧ fst out !! l = Some (ORect r')).
Proof.
  cbv zeta. cbn [fst snd]. split; [tauto|]. split; [tauto|].
  intros l Hnone [x Hx]. congruence.
Qed.

(** A call that writes the record in place. *)
Lemma frame_of_update (σ : heap) (face : loc) (o o' : pyobj) (res : outcome loc) :
  σ !! face = Some o →
  let out : heap * outcome loc := (<[face := o']> σ, res) in
  (∀ l o, l ≠ face → σ !! l = Some o → fst out !! l = Some o) ∧
  (∀ l, is_Some (σ !! l) → is_Some (fst out !! l)) ∧
  (∀ l, σ !! l = None → is_Some (fst out !! l) →
        snd out = Returns l ∧ ∃ r r', σ !! face = Some (ORect r) ∧ fst out !! l = Some (ORect r')).
Proof.
  intros Hface. cbv zeta. cbn [fst snd].
  split; [intros l x Hl Hx; rewrite lookup_insert_ne by congruence; exact Hx|].
  split.
  - intros l Hl. destruct (decide (l = face)) as [->|Hne];
      [rewrite lookup_insert_eq; eauto|rewrite lookup_insert_ne by congruence; exact Hl].
  - intros l Hnone [x Hx]. destruct (decide (l = face)) as [->|Hne];
      [congruence|rewrite lookup_insert_ne in Hx by congruence; congruence].
Qed.

(** X2.  The call leaves every other object of the store as it is, removes
    nothing, and allocates at most the rectangle it returns. *)
Theorem rotate_landmarks_frame (σ : heap) face M :
  let out := rotate_landmarks face M σ in
  (∀ l o, l ≠ face → σ !! l = Some o → fst out !! l = Some o) ∧
  (∀ l, is_Some (σ !! l) → is_Some (fst out !! l)) ∧
  (∀ l, σ !! l = None → is_Some (fst out !! l) →
        snd out = Returns l ∧ ∃ r r', σ !! face = Some (ORect r) ∧ fst out !! l = Some (ORect r')).
Proof.
  cbv zeta.
  assert (Hcases : (∃ o, σ !! face = Some o) ∨ σ !! face = None)
    by (destruct (σ !! face); eauto).
  destruct Hcases as [[o Hface]|Hface].
  2: { assert (E : rotate_landmarks face M σ = (σ, Raises ValueError)).
       { unfold rotate_landmarks, mbind, py_bind, bind, deref, lift. rewrite Hface.
         reflexivity. }
       rewrite E. exact (frame_of_unchanged σ face ValueError). }
  destruct (recognized (Some o)) eqn:Hrec.
  2: { destruct o as [f|d|r|t]; try discriminate Hrec.
       assert (E : rotate_landmarks face M σ = (σ, Raises ValueError)).
       { unfold rotate_landmarks, mbind, py_bind, bind, deref, lift. rewrite Hface.
         reflexivity. }
       rewrite E. exact (frame_of_unchanged σ face ValueError). }
  destruct (record_fits o) eqn:Hfit.
  2: { rewrite (rotate_landmarks_overflow _ _ _ _ Hface Hrec Hfit).
       exact (frame_of_unchanged σ face OverflowError). }
  destruct o as [f|d|r|t]; [| | |discriminate Hrec].
  - rewrite (rotate_landmarks_face _ _ _ _ Hface Hfit). cbv zeta.
    destruct (landmarksXY f) as [|p [|p' ps]]; exact (frame_of_update σ face _ _ _ Hface).
  - rewrite (rotate_landmarks_dict _ _ _ _ Hface Hfit). cbv zeta.
    destruct (default [] (landmarks_entry d)) as [|p [|p' ps]];
      exact (frame_of_update σ face _ _ _ Hface).
  - rewrite (rotate_landmarks_rect _ _ _ _ Hface Hfit). cbn [fst snd].
    pose proof (is_fresh (dom σ)) as Hfresh. apply not_elem_of_dom in Hfresh.
    split; [|split].
    + intros l o Hl Ho. rewrite lookup_insert_ne by congruence. exact Ho.
    + intros l Hl. rewrite lookup_insert_ne; [exact Hl|]. intros E. subst l.
      rewrite Hfresh in Hl. destruct Hl as [x Hx]. discriminate Hx.
    + intros l Hnone [x Hx]. destruct (decide (l = fresh (dom σ))) as [->|Hne].
      * split; [reflexivity|]. exists r. eexists. split; [exact Hface|].
        apply lookup_insert_eq.
      * rewrite lookup_insert_ne in Hx by congruence. congruence.
Qed.

(** *** Matrices without an inverse, translations *)

Lemma Qis_zero_true (q : Q) : (q == 0)%Q → Qis_zero q = true.
Proof.
  unfold Qis_zero, Qeq. cbn [Qnum Qden]. intros H. apply Z.eqb_eq. lia.
Qed.

Lemma Qis_zero_false (q : Q) : ¬ (q == 0)%Q → Qis_zero q = false.
Proof.
  unfold Qis_zero, Qeq. cbn [Qnum Qden]. intros H. apply Z.eqb_neq. lia.
Qed.

Lemma singular_transform (M : matrix) (p : point) :
  (determinant M == 0)%Q →
  transform_point (invertAffineTransform M) p = (0, 0).
Proof.
  intros Hdet. unfold determinant in Hdet.
  rewrite (transform_point_eq _ _ 0%Q 0%Q); [reflexivity| |];
    unfold invertAffineTransform; cbn [m00 m01 m02 m10 m11 m12];
    rewrite (Qis_zero_true _ Hdet); ring.
Qed.

Lemma singular_sides (M : matrix) (b : Box) :
  (determinant M == 0)%Q → corrected_sides b M = (0, 0, 0, 0).
Proof.
  intros Hdet.
  unfold corrected_sides, transformed_corners, box_corners, corners,
    cv2_transform, astype_int32.
  cbn [map fold_left hd tail fst snd cv_transform_point cv_invertAffineTransform
       exact_arithmetic].
  rewrite !(singular_transform M) by exact Hdet. reflexivity.
Qed.

(** X3.  A matrix without an inverse, for one whose linear part holds whole
    numbers of at most 2048, which floating-point arithmetic multiplies
    and subtracts without error: its determinant is 0, OpenCV then hands
    back the zero matrix, every corner lands on the origin, and the record
    is left with the empty box at (0, 0), whatever box it held. *)
Theorem rotate_landmarks_singular_matrix (σ : heap) face M (o : pyobj) (b : Box) :
  whole_entries M →
  (determinant M == 0)%Q →
  σ !! face = Some o →
  stored_box o = Some b →
  record_fits o = true →
  ∃ o',
    result_record o face (rotate_landmarks face M σ) = Some o' ∧
    stored_box o' = Some (mkBox 0 0 0 0).
Proof.
  intros _ Hdet Hface Hbox Hfit.
  destruct (rotate_landmarks_result_box σ face M o b Hface Hbox Hfit) as (o' & Hres & Hb & _).
  exists o'. split; [exact Hres|]. rewrite Hb. cbv zeta.
  rewrite corrected_box_sides, (singular_sides M b Hdet). cbn [fst snd].
  destruct o; reflexivity.
Qed.

Lemma translation_transform (k l : Z) (p : point) :
  transform_point (invertAffineTransform (translation_matrix (inject_Z k) (inject_Z l))) p =
    (fst p - k, snd p - l).
Proof.
  rewrite (transform_point_eq _ _ (inject_Z (fst p - k)) (inject_Z (snd p - l))).
  - rewrite !cvRound_inject_Z. reflexivity.
  - unfold invertAffineTransform, translation_matrix. cbn [m00 m01 m02 m10 m11 m12].
    set (D := if Qis_zero _ then _ else _); vm_compute in D; subst D.
    unfold Z.sub. rewrite inject_Z_plus, inject_Z_opp. ring.
  - unfold invertAffineTransform, translation_matrix. cbn [m00 m01 m02 m10 m11 m12].
    set (D := if Qis_zero _ then _ else _); vm_compute in D; subst D.
    unfold Z.sub. rewrite inject_Z_plus, inject_Z_opp. ring.
Qed.

Lemma translation_sides (k l x y w h : Z) :
  0 ≤ w → 0 ≤ h →
  fits_int32 (x - k) → fits_int32 (y - l) →
  fits_int32 (x + w - k) → fits_int32 (y + h - l) →
  corrected_sides (mkBox x y w h) (translation_matrix (inject_Z k) (inject_Z l)) =
    (x - k, y - l, x + w - k, y + h - l).
Proof.
  intros Hw Hh Hxk Hyl Hx1k Hy1l.
  unfold corrected_sides, transformed_corners, box_corners, corners,
    cv2_transform, astype_int32.
  cbn [map fold_left hd tail fst snd box_x box_y box_w box_h
       cv_transform_point cv_invertAffineTransform exact_arithmetic].
  rewrite !translation_transform. cbn [fst snd].
  rewrite ?(saturate_cast_fits (x - k)), ?(saturate_cast_fits (y - l)),
    ?(saturate_cast_fits (x + w - k)), ?(saturate_cast_fits (y + h - l)) by assumption.
  tidy_minmax.
  rewrite (Z.min_l (x - k) (x + w - k)), (Z.max_r (x - k) (x + w - k)),
    (Z.min_l (y - l) (y + h - l)), (Z.max_r (y - l) (y + h - l)) by lia.
  reflexivity.
Qed.

(** X4.  A translation by whole pixels, on a record whose landmarks have
    32-bit representations: the correction moves the box back by that
    offset and keeps its width and height, for each of the three
    shapes. *)
Theorem rotate_landmarks_translation (σ : heap) face (k l : Z) (o : pyobj) (b : Box) :
  σ !! face = Some o →
  stored_box o = Some b →
  points_fit (stored_landmarks o) = true →
  0 ≤ box_w b → 0 ≤ box_h b → box_in_range b →
  pixel_range k → pixel_range l →
  ∃ o',
    result_record o face
      (rotate_landmarks face (translation_matrix (inject_Z k) (inject_Z l)) σ) = Some o' ∧
    stored_box o' = Some (mkBox (box_x b - k) (box_y b - l) (box_w b) (box_h b)) ∧
    stored_rotation o' = match o with ORect _ => None | _ => Some 0 end.
Proof.
  intros Hface Hbox Hlm Hw Hh (Hx0 & Hy0 & Hx1 & Hy1) Hk Hl.
  unfold pixel_range in *. change (2 ^ 29) with 536870912 in *.
  assert (Hfit : record_fits o = true).
  { apply (record_fits_intro o b Hbox); [|exact Hlm]. destruct b as [x y w h].
    cbn [box_x box_y box_w box_h] in *.
    apply corners_fit; unfold fits_int32, int32_min, int32_max; lia. }
  destruct (rotate_landmarks_result_box σ face
              (translation_matrix (inject_Z k) (inject_Z l)) o b Hface Hbox Hfit)
    as (o' & Hres & Hb & Hr).
  exists o'. split; [exact Hres|]. split; [|exact Hr]. rewrite Hb. cbv zeta.
  destruct b as [x y w h]. cbn [box_x box_y box_w box_h] in *.
  rewrite corrected_box_sides.
  rewrite translation_sides by (unfold fits_int32, int32_min, int32_max; lia).
  cbn [fst snd].
  replace (x + w - k - (x - k)) with w by lia.
  replace (y + h - l - (y - l)) with h by lia.
  rewrite (np_int32_fits w), (np_int32_fits h)
    by (unfold fits_int32, int32_min, int32_max; lia).
  destruct o; reflexivity.
Qed.

(** *** Landmarks through a quarter turn and back *)

Lemma fits_of_bounds (z lo hi : Z) :
  lo ≤ z ≤ hi → - 2 ^ 31 ≤ lo → hi ≤ 2 ^ 31 - 1 → saturate_cast z = z.
Proof.
  intros Hz Hlo Hhi. apply saturate_cast_fits. unfold fits_int32, int32_min, int32_max. lia.
Qed.

(** One landmark, rotated forward and corrected. *)
Lemma point_round_trip (a : quarter_turn) (tx ty : Q) (p : point) :
  pixel_range (fst p) → pixel_range (snd p) →
  offset_range tx → offset_range ty →
  let M := quarter_turn_matrix a tx ty in
  let q := transform_point M p in
  let r := transform_point (invertAffineTransform M)
             (saturate_cast (fst q), saturate_cast (snd q)) in
  let p' := (saturate_cast (fst r), saturate_cast (snd r)) in
  point_close p p' ∧ (integral tx → integral ty → p' = p).
Proof.
  intros Hx Hy Htx Hty M q r p'. subst M q r p'. destruct p as [x y].
  cbn [fst snd] in *. unfold pixel_range in *.
  rewrite forward_turn. cbn [fst snd].
  destruct a; cbn [fst snd].
  - pose proof (range_plus y tx _ _ _ _ Hy Htx) as R1.
    pose proof (range_minus x ty _ _ _ _ Hx Hty) as R2.
    rewrite (fits_of_bounds _ _ _ R1), (fits_of_bounds _ _ _ R2) by lia.
    rewrite backward_turn. cbn [fst snd].
    pose proof (range_minus _ ty _ _ _ _ R2 Hty) as R3.
    pose proof (range_sub _ tx _ _ _ _ R1 Htx) as R4.
    rewrite (fits_of_bounds _ _ _ R3), (fits_of_bounds _ _ _ R4) by lia.
    split; [split; cbn [fst snd]; [apply near_minus|apply near_plus]|].
    intros Itx Ity. rewrite exact_minus, exact_plus by assumption. reflexivity.
  - pose proof (range_minus x tx _ _ _ _ Hx Htx) as R1.
    pose proof (range_minus y ty _ _ _ _ Hy Hty) as R2.
    rewrite (fits_of_bounds _ _ _ R1), (fits_of_bounds _ _ _ R2) by lia.
    rewrite backward_turn. cbn [fst snd].
    pose proof (range_minus _ tx _ _ _ _ R1 Htx) as R3.
    pose proof (range_minus _ ty _ _ _ _ R2 Hty) as R4.
    rewrite (fits_of_bounds _ _ _ R3), (fits_of_bounds _ _ _ R4) by lia.
    split; [split; cbn [fst snd]; apply near_minus|].
    intros Itx Ity. rewrite !exact_minus by assumption. reflexivity.
  - pose proof (range_minus y tx _ _ _ _ Hy Htx) as R1.
    pose proof (range_plus x ty _ _ _ _ Hx Hty) as R2.
    rewrite (fits_of_bounds _ _ _ R1), (fits_of_bounds _ _ _ R2) by lia.
    rewrite backward_turn. cbn [fst snd].
    pose proof (range_sub _ ty _ _ _ _ R2 Hty) as R3.
    pose proof (range_minus _ tx _ _ _ _ R1 Htx) as R4.
    rewrite (fits_of_bounds _ _ _ R3), (fits_of_bounds _ _ _ R4) by lia.
    split; [split; cbn [fst snd]; [apply near_plus|apply near_minus]|].
    intros Itx Ity. rewrite exact_minus, exact_plus by assumption. reflexivity.
Qed.

Lemma landmarks_round_trip (a : quarter_turn) (tx ty : Q) (l : list point) :
  coordinates_within (2 ^ 29) l →
  offset_range tx → offset_range ty →
  let M := quarter_turn_matrix a tx ty in
  let l' := transformed_landmarks (cv2_transform l M) M in
  Forall2 point_close l l' ∧ (integral tx → integral ty → l' = l).
Proof.
  intros Hl Htx Hty M l'. subst l'.
  unfold transformed_landmarks, cv2_transform, astype_int32.
  induction l as [|p l IH]; cbn [map].
  - split; [constructor|reflexivity].
  - assert (Hp : pixel_range (fst p) ∧ pixel_range (snd p)).
    { apply (Hl p). left. }
    destruct Hp as [Hpx Hpy].
    destruct (point_round_trip a tx ty p Hpx Hpy Htx Hty) as [Hclose Hexact].
    destruct IH as [IHc IHe].
    { intros q Hq. apply Hl. right. exact Hq. }
    split.
    + constructor; [exact Hclose|exact IHc].
    + intros Itx Ity. f_equal; [exact (Hexact Itx Ity)|exact (IHe Itx Ity)].
Qed.

Lemma transform_length `{K : OpenCV} (l : list point) (M : matrix) :
  length (cv2_transform l M) = length l.
Proof. unfold cv2_transform. apply length_map. Qed.

(** What the call does on a record with two landmarks or more. *)
Lemma rotate_landmarks_returns `{K : OpenCV} (σ : heap) face M (o : pyobj) :
  σ !! face = Some o →
  record_fits o = true →
  (2 ≤ length (stored_landmarks o))%nat →
  ∃ σ' o',
    rotate_landmarks face M σ = (σ', Returns face) ∧
    σ' !! face = Some o' ∧
    stored_landmarks o' = transformed_landmarks (stored_landmarks o) M ∧
    ∀ b, stored_box o = Some b → stored_box o' = Some (corrected_box b M).
Proof.
  intros Hface Hfit Hlen. destruct o as [f|d|r|t]; cbn [stored_landmarks] in Hlen;
    try (cbn in Hlen; lia).
  - rewrite (rotate_landmarks_face _ _ _ _ Hface Hfit). cbv zeta. cbn [stored_landmarks].
    destruct (landmarksXY f) as [|p [|p' l]]; cbn in Hlen; try lia.
    eexists. eexists. split; [reflexivity|]. rewrite lookup_insert_eq.
    split; [reflexivity|]. split; [reflexivity|].
    intros b Hb. apply Some_eq in Hb. change (face_box f = b) in Hb. subst b.
    apply stored_box_face_landmarks.
  - rewrite (rotate_landmarks_dict _ _ _ _ Hface Hfit). cbv zeta. cbn [stored_landmarks].
    destruct (default [] (landmarks_entry d)) as [|p [|p' l]]; cbn in Hlen; try lia.
    eexists. eexists. split; [reflexivity|]. rewrite lookup_insert_eq.
    split; [reflexivity|]. split; [reflexivity|].
    intros b Hb. apply Some_eq in Hb. change (dict_box d = b) in Hb. subst b.
    apply stored_box_dict_landmarks.
Qed.

(** X5.  Landmarks found in an image rotated by 90, 180 or 270 degrees come
    back to where they are in the original image: each coordinate within
    one pixel, and exactly when the translation is integral.  The
    coordinates of the record, box and landmarks, have 32-bit
    representations. *)
Theorem rotate_landmarks_landmarks_round_trip (σ : heap) face (a : quarter_turn)
    (tx ty : Q) (o : pyobj) (l : list point) :
  σ !! face = Some o →
  record_fits o = true →
  stored_landmarks o = cv2_transform l (quarter_turn_matrix a tx ty) →
  (2 ≤ length l)%nat →
  coordinates_within (2 ^ 29) l →
  offset_range tx → offset_range ty →
  ∃ σ' o',
    rotate_landmarks face (quarter_turn_matrix a tx ty) σ = (σ', Returns face) ∧
    σ' !! face = Some o' ∧
    Forall2 point_close l (stored_landmarks o') ∧
    (integral tx → integral ty → stored_landmarks o' = l).
Proof.
  intros Hface Hfit Hstored Hlen Hl Htx Hty.
  destruct (rotate_landmarks_returns σ face (quarter_turn_matrix a tx ty) o Hface Hfit)
    as (σ' & o' & Hrun & Hlook & Hlm & _).
  { rewrite Hstored, transform_length. exact Hlen. }
  exists σ', o'. split; [exact Hrun|]. split; [exact Hlook|].
  rewrite Hlm, Hstored. exact (landmarks_round_trip a tx ty l Hl Htx Hty).
Qed.

(** *** Landmarks stay inside the corrected box *)

Lemma cvRound_monotone (p q : Q) : (p <= q)%Q → cvRound p ≤ cvRound q.
Proof.
  intros Hpq. destruct (Qeq_dec p q) as [E|N].
  - rewrite E. lia.
  - assert (Hlt : (p < q)%Q).
    { apply Qle_lteq in Hpq as [H|H]; [exact H|contradiction]. }
    destruct (cvRound_bounds p) as [Hp _]. destruct (cvRound_bounds q) as [_ Hq].
    assert (H : (inject_Z (cvRound p) < inject_Z (cvRound q + 1))%Q).
    { rewrite inject_Z_plus. qlra. }
    rewrite <- Zlt_Qlt in H. lia.
Qed.

Ltac qnra :=
  repeat match goal with
         | |- context [inject_Z ?z] =>
             let v := fresh "v" in set (v := inject_Z z) in *; clearbody v
         | H : context [inject_Z ?z] |- _ =>
             let v := fresh "v" in set (v := inject_Z z) in *; clearbody v
         end;
  nra.

Ltac corner_member := apply list_elem_of_In; cbn [In]; auto 6.

(** An affine function on a rectangle lies between its values at two of
    the corners. *)
Lemma affine_between (a b c : Q) (x0 y0 x1 y1 x y : Z) :
  x0 ≤ x ≤ x1 → y0 ≤ y ≤ y1 →
  let f := λ p : point, (a * inject_Z (fst p) + b * inject_Z (snd p) + c)%Q in
  ∃ lo hi,
    lo ∈ corners x0 y0 x1 y1 ∧ hi ∈ corners x0 y0 x1 y1 ∧
    (f lo <= f (x, y))%Q ∧ (f (x, y) <= f hi)%Q.
Proof.
  intros [Hx0 Hx1] [Hy0 Hy1] f. subst f. cbv beta.
  rewrite Zle_Qle in Hx0, Hx1, Hy0, Hy1. unfold corners.
  destruct (Qlt_le_dec a 0) as [Ha|Ha], (Qlt_le_dec b 0) as [Hb|Hb].
  - exists (x1, y1), (x0, y0). cbn [fst snd].
    split; [corner_member|]. split; [corner_member|]. split; qnra.
  - exists (x1, y0), (x0, y1). cbn [fst snd].
    split; [corner_member|]. split; [corner_member|]. split; qnra.
  - exists (x0, y1), (x1, y0). cbn [fst snd].
    split; [corner_member|]. split; [corner_member|]. split; qnra.
  - exists (x0, y0), (x1, y1). cbn [fst snd].
    split; [corner_member|]. split; [corner_member|]. split; qnra.
Qed.

(** Points that [cv2.transform] leaves within 2^29 are the rounded images:
    no coordinate was replaced for being out of range. *)
Lemma saturate_within (z : Z) : pixel_range (saturate_cast z) → saturate_cast z = z.
Proof.
  unfold saturate_cast, pixel_range. destruct (fits_int32b z); [reflexivity|].
  unfold int32_min. change (2 ^ 29) with 536870912. change (2 ^ 31) with 2147483648. lia.
Qed.

Lemma transform_within (pts : list point) (A : matrix) :
  coordinates_within (2 ^ 29) (cv2_transform pts A) →
  cv2_transform pts A = map (transform_point A) pts.
Proof.
  unfold cv2_transform. cbn [cv_transform_point exact_arithmetic].
  induction pts as [|p pts IH]; intros H; [reflexivity|].
  cbn [map] in *. rewrite IH by (intros q Hq; apply H; right; exact Hq).
  destruct (H _ ltac:(left)) as [Hx Hy]. cbn [fst snd] in Hx, Hy.
  rewrite (saturate_within _ Hx), (saturate_within _ Hy).
  destruct (transform_point A p); reflexivity.
Qed.

Lemma transform_between (A : matrix) (b : Box) (p : point) :
  0 ≤ box_w b → 0 ≤ box_h b → inside b p →
  ∃ q1 q2 q3 q4,
    (q1 ∈ map (transform_point A) (box_corners b) ∧
     q2 ∈ map (transform_point A) (box_corners b) ∧
     q3 ∈ map (transform_point A) (box_corners b) ∧
     q4 ∈ map (transform_point A) (box_corners b)) ∧
    fst q1 ≤ fst (transform_point A p) ≤ fst q2 ∧
    snd q3 ≤ snd (transform_point A p) ≤ snd q4.
Proof.
  intros Hw Hh [Hx Hy]. destruct p as [x y]. cbn [fst snd] in Hx, Hy.
  destruct (affine_between (m00 A) (m01 A) (m02 A) _ _ _ _ x y Hx Hy)
    as (c1 & c2 & Hc1 & Hc2 & Hlo1 & Hhi1).
  destruct (affine_between (m10 A) (m11 A) (m12 A) _ _ _ _ x y Hx Hy)
    as (c3 & c4 & Hc3 & Hc4 & Hlo2 & Hhi2).
  fold (box_corners b) in Hc1, Hc2, Hc3, Hc4.
  exists (transform_point A c1), (transform_point A c2),
         (transform_point A c3), (transform_point A c4).
  split.
  - repeat split; apply list_elem_of_fmap_2; assumption.
  - unfold transform_point. cbv zeta. cbn [fst snd] in *.
    repeat split; apply cvRound_monotone; assumption.
Qed.

(** X6.  Landmarks that lie in the box of the record lie in the corrected box
    after the call, for every matrix: an affine map carries the box into
    the span of its corners, and rounding keeps the order.  Coordinates
    are taken within 2^29 before and after the map, so that the int32
    arrays hold them as they are. *)
Theorem rotate_landmarks_keeps_landmarks_inside (σ : heap) face M (o : pyobj) (b : Box) :
  σ !! face = Some o →
  stored_box o = Some b →
  (2 ≤ length (stored_landmarks o))%nat →
  0 ≤ box_w b → 0 ≤ box_h b →
  (∀ p, p ∈ stored_landmarks o → inside b p) →
  coordinates_within (2 ^ 29) (box_corners b) →
  coordinates_within (2 ^ 29) (cv2_transform (box_corners b) (invertAffineTransform M)) →
  ∃ σ' o' b',
    rotate_landmarks face M σ = (σ', Returns face) ∧
    σ' !! face = Some o' ∧
    stored_box o' = Some b' ∧
    ∀ p', p' ∈ stored_landmarks o' → inside b' p'.
Proof.
  intros Hface Hbox Hlen Hw Hh Hin Hcorners Himages.
  assert (Hspan : pixel_range (box_x b) ∧ pixel_range (box_y b) ∧
                  pixel_range (box_x b + box_w b) ∧ pixel_range (box_y b + box_h b)).
  { assert (H00 : (box_x b, box_y b) ∈ box_corners b)
      by (unfold box_corners, corners; corner_member).
    assert (H11 : (box_x b + box_w b, box_y b + box_h b) ∈ box_corners b)
      by (unfold box_corners, corners; corner_member).
    destruct (Hcorners _ H00) as [? ?], (Hcorners _ H11) as [? ?]. cbn [fst snd] in *.
    unfold pixel_range. auto. }
  destruct Hspan as (Sx0 & Sy0 & Sx1 & Sy1). unfold pixel_range in Sx0, Sy0, Sx1, Sy1.
  assert (Hfits : record_fits o = true).
  { apply (record_fits_intro o b Hbox).
    - apply points_fit_spec. intros q Hq. destruct (Hcorners q Hq) as [? ?].
      change (2 ^ 29) with 536870912 in *.
      unfold fits_int32, int32_min, int32_max. lia.
    - apply points_fit_spec. intros q Hq. destruct (Hin q Hq) as [? ?].
      change (2 ^ 29) with 536870912 in *.
      unfold fits_int32, int32_min, int32_max. lia. }
  destruct (rotate_landmarks_returns σ face M o Hface Hfits Hlen)
    as (σ' & o' & Hrun & Hlook & Hlm & Hb).
  exists σ', o', (corrected_box b M).
  split; [exact Hrun|]. split; [exact Hlook|]. split; [exact (Hb b Hbox)|].
  set (A := invertAffineTransform M) in *.
  assert (Etc : transformed_corners b M = cv2_transform (box_corners b) A) by reflexivity.
  assert (Hfit : extent_fits (transformed_corners b M)).
  { rewrite Etc. intros q q' Hq Hq'.
    destruct (Himages q Hq) as [? ?], (Himages q' Hq') as [? ?].
    change (2 ^ 29) with 536870912 in *.
    unfold fits_int32, int32_min, int32_max. lia. }
  destruct (corrected_box_enclosing b M Hfit) as [Henc _]. rewrite Etc in Henc.
  pose proof (transform_within _ _ Himages) as Eraw.
  rewrite Eraw in Henc, Himages.
  intros p' Hp'. rewrite Hlm in Hp'.
  unfold transformed_landmarks, astype_int32, cv2_transform in Hp'.
  cbn [cv_transform_point cv_invertAffineTransform exact_arithmetic] in Hp'.
  fold A in Hp'.
  apply list_elem_of_fmap in Hp' as (p & -> & Hp).
  pose proof (Hin p Hp) as Hinside.
  destruct (transform_between A b p Hw Hh Hinside)
    as (q1 & q2 & q3 & q4 & (H1 & H2 & H3 & H4) & Hxs & Hys).
  destruct (Himages _ H1) as [? _], (Himages _ H2) as [? _],
    (Himages _ H3) as [_ ?], (Himages _ H4) as [_ ?].
  destruct (Henc _ H1) as [? _], (Henc _ H2) as [? _],
    (Henc _ H3) as [_ ?], (Henc _ H4) as [_ ?].
  change (2 ^ 29) with 536870912 in *.
  rewrite !saturate_cast_fits by (unfold fits_int32, int32_min, int32_max; lia).
  unfold inside. cbn [fst snd]. lia.
Qed.

(** *** Instances *)

Lemma inside_check (b : Box) (pts : list point) :
  forallb (insideb b) pts = true → ∀ p, p ∈ pts → inside b p.
Proof.
  intros H p Hp. rewrite forallb_forall in H. apply list_elem_of_In in Hp.
  specialize (H p Hp). unfold insideb, inside in *. lia.
Qed.

Lemma coordinates_within_check (bound : Z) (pts : list point) :
  forallb (withinb bound) pts = true → coordinates_within bound pts.
Proof.
  intros H p Hp. rewrite forallb_forall in H. apply list_elem_of_In in Hp.
  specialize (H p Hp). unfold withinb in *. lia.
Qed.

Lemma pixel_range_check (z : Z) :
  (- 2 ^ 29 <=? z) && (z <=? 2 ^ 29) = true → pixel_range z.
Proof. unfold pixel_range. lia. Qed.

(** An instance of the statement, its hypotheses checked by computation. *)
Lemma rotate_landmarks_single_landmark_witness :
  store_of (ODetectedFace face1) !! 1%positive = Some (ODetectedFace face1) ∧
  stored_landmarks (ODetectedFace face1) = [(11, 22)] ∧
  stored_box (ODetectedFace face1) = Some box0 ∧
  record_fits (ODetectedFace face1) = true ∧
  ∃ σ' o',
    rotate_landmarks 1%positive shift5 (store_of (ODetectedFace face1)) =
      (σ', Raises TypeError) ∧
    σ' !! 1%positive = Some o' ∧
    stored_box o' = Some (corrected_box box0 shift5) ∧
    stored_rotation o' = Some 0 ∧
    stored_landmarks o' = [(11, 22)] ∧
    ∀ l, l ≠ 1%positive → σ' !! l = store_of (ODetectedFace face1) !! l.
Proof.
  assert (H1 : store_of (ODetectedFace face1) !! 1%positive = Some (ODetectedFace face1))
    by (vm_compute; reflexivity).
  assert (H2 : stored_landmarks (ODetectedFace face1) = [(11, 22)]) by reflexivity.
  assert (H3 : stored_box (ODetectedFace face1) = Some box0) by reflexivity.
  assert (H4 : record_fits (ODetectedFace face1) = true) by reflexivity.
  split; [exact H1|]. split; [exact H2|]. split; [exact H3|]. split; [exact H4|].
  exact (rotate_landmarks_single_landmark _ _ shift5 _ _ _ H1 H2 H3 H4).
Defined.

(** An instance of the statement, its hypotheses checked by computation. *)
Lemma rotate_landmarks_singular_matrix_witness :
  whole_entries flat_matrix ∧
  (determinant flat_matrix == 0)%Q ∧
  store_of (ODetectedFace face2) !! 1%positive = Some (ODetectedFace face2) ∧
  stored_box (ODetectedFace face2) = Some box0 ∧
  record_fits (ODetectedFace face2) = true ∧
  ∃ o',
    result_record (ODetectedFace face2) 1%positive
      (rotate_landmarks 1%positive flat_matrix (store_of (ODetectedFace face2))) = Some o' ∧
    stored_box o' = Some (mkBox 0 0 0 0).
Proof.
  assert (H0 : whole_entries flat_matrix).
  { exists 1, 2, 2, 4. repeat split; try reflexivity; cbn; lia. }
  assert (H1 : (determinant flat_matrix == 0)%Q) by reflexivity.
  assert (H2 : store_of (ODetectedFace face2) !! 1%positive = Some (ODetectedFace face2))
    by (vm_compute; reflexivity).
  assert (H3 : stored_box (ODetectedFace face2) = Some box0) by reflexivity.
  assert (H4 : record_fits (ODetectedFace face2) = true) by reflexivity.
  split; [exact H0|]. split; [exact H1|]. split; [exact H2|]. split; [exact H3|].
  split; [exact H4|].
  exact (rotate_landmarks_singular_matrix _ _ _ _ _ H0 H1 H2 H3 H4).
Defined.

(** An instance of the statement, its hypotheses checked by computation. *)
Lemma rotate_landmarks_translation_witness :
  store_of (ODict dict0) !! 1%positive = Some (ODict dict0) ∧
  stored_box (ODict dict0) = Some box0 ∧
  points_fit (stored_landmarks (ODict dict0)) = true ∧
  0 ≤ box_w box0 ∧ 0 ≤ box_h box0 ∧ box_in_range box0 ∧
  pixel_range 5 ∧ pixel_range (-7) ∧
  ∃ o',
    result_record (ODict dict0) 1%positive
      (rotate_landmarks 1%positive (translation_matrix (inject_Z 5) (inject_Z (-7)))
         (store_of (ODict dict0))) = Some o' ∧
    stored_box o' = Some (mkBox (box_x box0 - 5) (box_y box0 - -7) (box_w box0) (box_h box0)) ∧
    stored_rotation o' = Some 0.
Proof.
  assert (H1 : store_of (ODict dict0) !! 1%positive = Some (ODict dict0))
    by (vm_compute; reflexivity).
  assert (H2 : stored_box (ODict dict0) = Some box0) by (vm_compute; reflexivity).
  assert (H2' : points_fit (stored_landmarks (ODict dict0)) = true) by reflexivity.
  assert (H3 : 0 ≤ box_w box0) by (cbn; lia).
  assert (H4 : 0 ≤ box_h box0) by (cbn; lia).
  assert (H5 : box_in_range box0) by (unfold box_in_range, pixel_range; cbn; lia).
  assert (H6 : pixel_range 5) by (apply pixel_range_check; reflexivity).
  assert (H7 : pixel_range (-7)) by (apply pixel_range_check; reflexivity).
  repeat (split; [assumption|]).
  exact (rotate_landmarks_translation _ _ 5 (-7) _ _ H1 H2 H2' H3 H4 H5 H6 H7).
Defined.

(** An instance of the statement, its hypotheses checked by computation. *)
Lemma rotate_landmarks_landmarks_round_trip_witness :
  store_of (ODetectedFace face_turned) !! 1%positive = Some (ODetectedFace face_turned) ∧
  record_fits (ODetectedFace face_turned) = true ∧
  stored_landmarks (ODetectedFace face_turned) =
    cv2_transform [(11, 22); (33, 44)] (quarter_turn_matrix Turn90 100 0) ∧
  (2 ≤ length [(11, 22); (33, 44)])%nat ∧
  coordinates_within (2 ^ 29) [(11, 22); (33, 44)] ∧
  offset_range 100 ∧ offset_range 0 ∧
  ∃ σ' o',
    rotate_landmarks 1%positive (quarter_turn_matrix Turn90 100 0)
      (store_of (ODetectedFace face_turned)) = (σ', Returns 1%positive) ∧
    σ' !! 1%positive = Some o' ∧
    Forall2 point_close [(11, 22); (33, 44)] (stored_landmarks o') ∧
    (integral 100 → integral 0 → stored_landmarks o' = [(11, 22); (33, 44)]).
Proof.
  assert (H1 : store_of (ODetectedFace face_turned) !! 1%positive =
               Some (ODetectedFace face_turned)) by (vm_compute; reflexivity).
  assert (H1' : record_fits (ODetectedFace face_turned) = true) by reflexivity.
  assert (H2 : stored_landmarks (ODetectedFace face_turned) =
               cv2_transform [(11, 22); (33, 44)] (quarter_turn_matrix Turn90 100 0))
    by (vm_compute; reflexivity).
  assert (H3 : (2 ≤ length [(11, 22); (33, 44)])%nat) by (cbn; lia).
  assert (H4 : coordinates_within (2 ^ 29) [(11, 22); (33, 44)])
    by (apply coordinates_within_check; vm_compute; reflexivity).
  assert (H5 : offset_range 100) by (apply offset_range_check; vm_compute; reflexivity).
  assert (H6 : offset_range 0) by (apply offset_range_check; vm_compute; reflexivity).
  repeat (split; [assumption|]).
  exact (rotate_landmarks_landmarks_round_trip _ _ Turn90 100 0 _ _ H1 H1' H2 H3 H4 H5 H6).
Defined.

(** An instance of the statement, its hypotheses checked by computation. *)
Lemma rotate_landmarks_keeps_landmarks_inside_witness :
  store_of (ODetectedFace face2) !! 1%positive = Some (ODetectedFace face2) ∧
  stored_box (ODetectedFace face2) = Some box0 ∧
  (2 ≤ length (stored_landmarks (ODetectedFace face2)))%nat ∧
  0 ≤ box_w box0 ∧ 0 ≤ box_h box0 ∧
  (∀ p, p ∈ stored_landmarks (ODetectedFace face2) → inside box0 p) ∧
  coordinates_within (2 ^ 29) (box_corners box0) ∧
  coordinates_within (2 ^ 29)
    (cv2_transform (box_corners box0) (invertAffineTransform turn0)) ∧
  ∃ σ' o' b',
    rotate_landmarks 1%positive turn0 (store_of (ODetectedFace face2)) =
      (σ', Returns 1%positive) ∧
    σ' !! 1%positive = Some o' ∧
    stored_box o' = Some b' ∧
    ∀ p', p' ∈ stored_landmarks o' → inside b' p'.
Proof.
  assert (H1 : store_of (ODetectedFace face2) !! 1%positive = Some (ODetectedFace face2))
    by (vm_compute; reflexivity).
  assert (H2 : stored_box (ODetectedFace face2) = Some box0) by reflexivity.
  assert (H3 : (2 ≤ length (stored_landmarks (ODetectedFace face2)))%nat) by (cbn; lia).
  assert (H4 : 0 ≤ box_w box0) by (cbn; lia).
  assert (H5 : 0 ≤ box_h box0) by (cbn; lia).
  assert (H6 : ∀ p, p ∈ stored_landmarks (ODetectedFace face2) → inside box0 p)
    by (apply inside_check; vm_compute; reflexivity).
  assert (H7 : coordinates_within (2 ^ 29) (box_corners box0))
    by (apply coordinates_within_check; vm_compute; reflexivity).
  assert (H8 : coordinates_within (2 ^ 29)
                 (cv2_transform (box_corners box0) (invertAffineTransform turn0)))
    by (apply coordinates_within_check; vm_compute; reflexivity).
  repeat (split; [assumption|]).
  exact (rotate_landmarks_keeps_landmarks_inside _ _ turn0 _ _ H1 H2 H3 H4 H5 H6 H7 H8).
Defined.

(** ** add_alpha_channel: the number of planes, the order of alpha values *)


Lemma empty_image_map {A B} (f : A → B) (img : list (list A)) :
  empty_image (map (map f) img) = empty_image img.
Proof.
  unfold empty_image. induction img as [|p img IH]; [reflexivity|].
  cbn [map forallb]. rewrite IH. destruct p; reflexivity.
Qed.

Lemma cv2_split_length {A} (img : list (list A)) :
  cv2_split img = [] ∨ length (cv2_split img) = length img.
Proof. unfold cv2_split. destruct (empty_image img); [left|right]; reflexivity. Qed.

(** The function past its assertion. *)
Lemma add_alpha_channel_unpack (image : Image) (intensity : Z) :
  0 ≤ intensity ≤ 100 →
  add_alpha_channel image intensity =
    match cv2_split (map (map float32_of_uint8) image) with
    | [ch_b; ch_g; ch_r] =>
        Returns (map (map uint8_of_float32)
                     [ch_b; ch_g; ch_r;
                      map (λ _, (1 * ((255 / 100) * inject_Z intensity))%Q) ch_b])
    | _ => Raises ValueError
    end.
Proof.
  intros Hi. unfold add_alpha_channel.
  assert (E : (0 <=? intensity) && (intensity <=? 100) = true) by lia.
  rewrite E. reflexivity.
Qed.

(** X7.  The image must have exactly three planes and hold a pixel: with
    any other number of planes, and for an image without a pixel, the
    unpacking of the split fails with ValueError.  The result has four
    planes, so the function cannot be applied to its own result. *)
Theorem add_alpha_channel_three_planes (image : Image) (intensity : Z) :
  0 ≤ intensity ≤ 100 →
  (add_alpha_channel image intensity = Raises ValueError ↔
   length image ≠ 3%nat ∨ empty_image image = true) ∧
  (∀ out, add_alpha_channel image intensity = Returns out →
          length out = 4%nat ∧
          ∀ intensity', 0 ≤ intensity' ≤ 100 →
                        add_alpha_channel out intensity' = Raises ValueError).
Proof.
  intros Hi. rewrite (add_alpha_channel_unpack image intensity Hi). split.
  - unfold cv2_split. rewrite empty_image_map.
    destruct (empty_image image) eqn:Hempty; [split; [auto|reflexivity]|].
    destruct image as [|b [|g [|r [|a rest]]]]; cbn [map length];
      (split; [try discriminate; intros _; left; lia|]);
      intros [Hlen|Hfalse]; try reflexivity; try discriminate Hfalse; lia.
  - intros out Hout.
    assert (Hfour : length out = 4%nat).
    { destruct (cv2_split (map (map float32_of_uint8) image))
        as [|b [|g [|r [|a rest]]]]; try discriminate Hout.
      injection Hout as <-. reflexivity. }
    split; [exact Hfour|]. intros i' Hi'.
    rewrite (add_alpha_channel_unpack out i' Hi').
    destruct (cv2_split_length (map (map float32_of_uint8) out)) as [E|E].
    + rewrite E. reflexivity.
    + assert (E' : length (cv2_split (map (map float32_of_uint8) out)) = 4%nat)
        by (rewrite E, length_map; exact Hfour).
      clear E. rename E' into E.
      destruct (cv2_split (map (map float32_of_uint8) out))
        as [|b [|g [|r [|a rest]]]]; try discriminate E; reflexivity.
Qed.

(** An instance of the statement, its hypothesis checked by computation. *)
Lemma add_alpha_channel_three_planes_witness :
  0 ≤ 50 ≤ 100 ∧
  (add_alpha_channel [blue0; green0; red0] 50 = Raises ValueError ↔
   length [blue0; green0; red0] ≠ 3%nat ∨ empty_image [blue0; green0; red0] = true) ∧
  (∀ out, add_alpha_channel [blue0; green0; red0] 50 = Returns out →
          length out = 4%nat ∧
          ∀ intensity', 0 ≤ intensity' ≤ 100 →
                        add_alpha_channel out intensity' = Raises ValueError).
Proof.
  assert (H : 0 ≤ 50 ≤ 100) by lia.
  split; [exact H|]. exact (add_alpha_channel_three_planes [blue0; green0; red0] 50 H).
Defined.



(** ** camel_case_split: the pieces *)

Lemma lower_not_newline (c : ascii) : is_lower c = true → Ascii.eqb c newline = false.
Proof.
  intros H. destruct (Ascii.eqb_spec c newline) as [->|]; [discriminate H|reflexivity].
Qed.

Lemma upper_not_newline (c : ascii) : is_upper c = true → Ascii.eqb c newline = false.
Proof.
  intros H. destruct (Ascii.eqb_spec c newline) as [->|]; [discriminate H|reflexivity].
Qed.

Lemma upper_not_lower (c : ascii) : is_upper c = true → is_lower c = false.
Proof.
  unfold is_upper, is_lower. cbv zeta. intros H.
  apply andb_prop in H as [_ H]. apply Nat.leb_le in H.
  apply andb_false_intro1. apply Nat.leb_gt. lia.
Qed.

(** A place where a match may not end in a longer string is none in a
    prefix of it either. *)
Lemma boundary_prefix (c d : ascii) (t u : string) :
  Ascii.eqb d newline = false →
  boundary c (String d t +:+ u) = false →
  boundary c (String d t) = false.
Proof.
  intros Hd. rewrite append_cons.
  destruct t as [|e t]; [rewrite append_nil|rewrite append_cons; cbn [boundary]; auto].
  cbn [boundary]. rewrite Hd.
  destruct (is_lower c), (is_upper c), (is_upper d); cbn [andb orb];
    intros H; try discriminate H; reflexivity.
Qed.

Lemma unbroken_no_newline (t : string) : unbroken t = true → has_newline t = false.
Proof.
  induction t as [|c t IH]; [reflexivity|]. cbn [unbroken has_newline].
  intros H. apply andb_prop in H as [H Ht]. apply andb_prop in H as [Hc _].
  apply negb_true_iff in Hc. rewrite Hc, (IH Ht). reflexivity.
Qed.

Lemma finditer_unbroken (t acc : string) :
  t ≠ "" → unbroken t = true → finditer acc t = [acc +:+ t].
Proof.
  revert acc. induction t as [|c t IH]; intros acc Hne H; [congruence|].
  cbn [unbroken] in H. apply andb_prop in H as [H Ht]. apply andb_prop in H as [Hc Hb].
  apply negb_true_iff in Hc. cbn [finditer]. rewrite Hc.
  destruct t as [|d t].
  - cbn [boundary finditer]. reflexivity.
  - apply negb_true_iff in Hb. rewrite Hb.
    rewrite IH by (assumption || discriminate).
    rewrite append_assoc. reflexivity.
Qed.

(** Every piece is the accumulated prefix followed by an unbroken run,
    or, past the first piece, an unbroken run by itself. *)
Lemma finditer_pieces (s acc piece : string) :
  piece ∈ finditer acc s →
  (∃ t u, piece = acc +:+ t ∧ s = t +:+ u ∧ t ≠ "" ∧ unbroken t = true) ∨
  (piece ≠ "" ∧ unbroken piece = true).
Proof.
  revert acc. induction s as [|c rest IH]; intros acc Hin; cbn [finditer] in Hin.
  - apply elem_of_nil in Hin. contradiction.
  - assert (Hlater : piece ∈ finditer "" rest → piece ≠ "" ∧ unbroken piece = true).
    { intros H. destruct (IH _ H) as [(t & u & -> & _ & Hne & Hu)|Hright];
        [rewrite append_nil; auto|exact Hright]. }
    destruct (Ascii.eqb c newline) eqn:Hc; [right; auto|].
    destruct (boundary c rest) eqn:Hb.
    + apply elem_of_cons in Hin as [-> | Hin]; [|right; auto].
      left. exists (String c ""), rest. split; [reflexivity|].
      split; [reflexivity|]. split; [discriminate|].
      cbn [unbroken]. rewrite Hc. reflexivity.
    + destruct (IH _ Hin) as [(t & u & -> & -> & Hne & Hu)|Hright]; [|right; exact Hright].
      left. exists (String c t), u. split; [rewrite append_assoc; reflexivity|].
      split; [reflexivity|]. split; [discriminate|].
      cbn [unbroken]. rewrite Hc, Hu. destruct t as [|d t]; [congruence|].
      assert (Hd : Ascii.eqb d newline = false).
      { cbn [unbroken] in Hu. apply andb_prop in Hu as [Hu _].
        apply andb_prop in Hu as [Hd _]. apply negb_true_iff in Hd. exact Hd. }
      rewrite (boundary_prefix c d t u Hd Hb). reflexivity.
Qed.

(** X9.  The pieces are atomic: none holds a newline, and splitting a piece
    again gives back that piece alone. *)
Theorem camel_case_split_pieces_atomic (identifier piece : string) :
  piece ∈ camel_case_split identifier →
  has_newline piece = false ∧ camel_case_split piece = [piece].
Proof.
  unfold camel_case_split. intros Hin.
  assert (H : piece ≠ "" ∧ unbroken piece = true).
  { destruct (finditer_pieces _ _ _ Hin) as [(t & u & -> & _ & Hne & Hu)|H];
      [rewrite append_nil; auto|exact H]. }
  destruct H as [Hne Hu]. split; [exact (unbroken_no_newline _ Hu)|].
  rewrite (finditer_unbroken _ _ Hne Hu), append_nil. reflexivity.
Qed.

Lemma unbroken_one_case (s : string) :
  has_newline s = false →
  all_chars (λ c, negb (is_upper c)) s = true ∨ all_chars (λ c, negb (is_lower c)) s = true →
  unbroken s = true.
Proof.
  induction s as [|c s IH]; [reflexivity|]. cbn [has_newline all_chars unbroken].
  intros Hnl Hcase. apply orb_false_elim in Hnl as [Hc Hs]. rewrite Hc. cbn [negb andb].
  assert (Htail : all_chars (λ c, negb (is_upper c)) s = true ∨
                  all_chars (λ c, negb (is_lower c)) s = true).
  { destruct Hcase as [H|H]; apply andb_prop in H as [_ H]; auto. }
  rewrite (IH Hs Htail), andb_true_r.
  destruct s as [|d s]; [reflexivity|].
  cbn [has_newline] in Hs. apply orb_false_elim in Hs as [Hd _].
  apply negb_true_iff. cbn [boundary]. rewrite Hd. cbn [andb]. rewrite orb_false_r.
  destruct Hcase as [H|H]; cbn [all_chars] in H.
  - apply andb_prop in H as [Hcu H]. apply andb_prop in H as [Hdu _].
    apply negb_true_iff in Hcu, Hdu. rewrite Hcu, Hdu, andb_false_r. reflexivity.
  - apply andb_prop in H as [Hcl H]. apply andb_prop in H as [_ H].
    apply negb_true_iff in Hcl. rewrite Hcl. cbn [andb orb].
    destruct s as [|e s]; [apply andb_false_r|].
    cbn [all_chars] in H. apply andb_prop in H as [Hel _].
    apply negb_true_iff in Hel. rewrite Hel. apply andb_false_r.
Qed.

(** X10.  A name written in one case, without an upper-case letter or without a
    lower-case letter, and without a newline, is not split. *)
Theorem camel_case_split_one_case (identifier : string) :
  identifier ≠ "" →
  has_newline identifier = false →
  all_chars (λ c, negb (is_upper c)) identifier = true ∨
  all_chars (λ c, negb (is_lower c)) identifier = true →
  camel_case_split identifier = [identifier].
Proof.
  intros Hne Hnl Hcase. unfold camel_case_split.
  rewrite (finditer_unbroken _ _ Hne (unbroken_one_case _ Hnl Hcase)), append_nil.
  reflexivity.
Qed.

(** *** Splitting at a camel hump *)

Lemma hump_facts (c d : ascii) (b : string) :
  hump c d b = true →
  Ascii.eqb c newline = false ∧ is_lower d = false ∧ boundary c (String d b) = true.
Proof.
  unfold hump. intros H. cbn [boundary].
  destruct (is_lower c) eqn:Hlc, (is_upper c) eqn:Huc, (is_upper d) eqn:Hud;
    cbn [andb orb] in H; try discriminate H;
    (split; [first [exact (lower_not_newline c Hlc)|exact (upper_not_newline c Huc)]|]);
    (split; [exact (upper_not_lower d Hud)|]); cbn [andb orb]; try reflexivity.
  rewrite H. reflexivity.
Qed.

(** Whether a match may end after [x] does not depend on what follows the
    hump. *)
Lemma boundary_before_hump (x c d : ascii) (a b : string) :
  hump c d b = true →
  boundary x (a +:+ String c (String d b)) = boundary x (a +:+ String c "").
Proof.
  intros H. destruct (hump_facts c d b H) as (Hc & Hd & _).
  destruct a as [|y a].
  - rewrite !append_nil. cbn [boundary]. rewrite Hc, Hd. cbn [andb].
    rewrite !andb_false_r. reflexivity.
  - rewrite !append_cons. cbn [boundary].
    destruct a as [|z a]; [rewrite !append_nil|rewrite !append_cons]; reflexivity.
Qed.

Lemma finditer_at_hump (a b acc : string) (c d : ascii) :
  hump c d b = true →
  finditer acc (a +:+ String c (String d b)) =
    finditer acc (a +:+ String c "") ++ finditer "" (String d b).
Proof.
  intros H. destruct (hump_facts c d b H) as (Hc & _ & Hb).
  revert acc. induction a as [|x a IH]; intros acc.
  - rewrite !append_nil.
    change (finditer acc (String c (String d b))) with
      (if Ascii.eqb c newline then finditer "" (String d b)
       else if boundary c (String d b)
            then (acc +:+ String c "") :: finditer "" (String d b)
            else finditer (acc +:+ String c "") (String d b)).
    rewrite Hc, Hb. cbn [finditer]. rewrite Hc. cbn [boundary finditer app]. reflexivity.
  - rewrite !append_cons.
    change (finditer acc (String x (a +:+ String c (String d b)))) with
      (if Ascii.eqb x newline then finditer "" (a +:+ String c (String d b))
       else if boundary x (a +:+ String c (String d b))
            then (acc +:+ String x "") :: finditer "" (a +:+ String c (String d b))
            else finditer (acc +:+ String x "") (a +:+ String c (String d b))).
    change (finditer acc (String x (a +:+ String c ""))) with
      (if Ascii.eqb x newline then finditer "" (a +:+ String c "")
       else if boundary x (a +:+ String c "")
            then (acc +:+ String x "") :: finditer "" (a +:+ String c "")
            else finditer (acc +:+ String x "") (a +:+ String c "")).
    rewrite (boundary_before_hump x c d a b H), !IH.
    destruct (Ascii.eqb x newline); [reflexivity|].
    destruct (boundary x (a +:+ String c "")); reflexivity.
Qed.

(** X11.  The split is compositional at a camel hump: where a lower-case letter
    meets an upper-case one, or an upper-case letter meets the first letter
    of a capitalised word, the name splits there and the two sides split
    as they would alone. *)
Theorem camel_case_split_at_hump (a b : string) (c d : ascii) :
  hump c d b = true →
  camel_case_split (a +:+ String c (String d b)) =
    camel_case_split (a +:+ String c "") ++ camel_case_split (String d b).
Proof. intros H. unfold camel_case_split. apply finditer_at_hump. exact H. Qed.

(** An instance of the statement, its hypothesis checked by computation. *)
Lemma camel_case_split_at_hump_witness :
  hump "L" "P" "arser" = true ∧
  camel_case_split ("camelCaseXM" +:+ String "L" (String "P" "arser")) =
    camel_case_split ("camelCaseXM" +:+ String "L" "") ++
    camel_case_split (String "P" "arser").
Proof.
  assert (H : hump "L" "P" "arser" = true) by reflexivity.
  split; [exact H|]. exact (camel_case_split_at_hump "camelCaseXM" "arser" "L" "P" H).
Defined.

(** An instance of the statement, its hypothesis checked by computation. *)
Lemma camel_case_split_pieces_atomic_witness :
  "XML" ∈ camel_case_split "camelCaseXMLParser" ∧
  has_newline "XML" = false ∧ camel_case_split "XML" = ["XML"].
Proof.
  assert (H : "XML" ∈ camel_case_split "camelCaseXMLParser").
  { apply list_elem_of_In. vm_compute. tauto. }
  split; [exact H|]. exact (camel_case_split_pieces_atomic _ _ H).
Defined.

(** An instance of the statement, its hypotheses checked by computation. *)
Lemma camel_case_split_one_case_witness :
  "faceswap" ≠ "" ∧
  has_newline "faceswap" = false ∧
  (all_chars (λ c, negb (is_upper c)) "faceswap" = true ∨
   all_chars (λ c, negb (is_lower c)) "faceswap" = true) ∧
  camel_case_split "faceswap" = ["faceswap"].
Proof.
  assert (H1 : "faceswap" ≠ "") by discriminate.
  assert (H2 : has_newline "faceswap" = false) by reflexivity.
  assert (H3 : all_chars (λ c, negb (is_upper c)) "faceswap" = true ∨
               all_chars (λ c, negb (is_lower c)) "faceswap" = true) by (left; reflexivity).
  split; [exact H1|]. split; [exact H2|]. split; [exact H3|].
  exact (camel_case_split_one_case _ H1 H2 H3).
Defined.

(** ** get_folder and get_image_paths: repeated calls, videos *)

(** [get_folder] on the table of paths. *)
Lemma get_folder_table (path : string) (fs : filesystem) :
  get_folder path fs =
    match fs !! path with
    | Some (NDir _) => (fs, Returns (PosixPath path))
    | Some NFile => (fs, Raises FileExistsError)
    | None => (<[path := NDir []]> fs, Returns (PosixPath path))
    end.
Proof.
  unfold get_folder. cbn [mkdir_parents table_filesystem]. unfold table_mkdir.
  destruct (fs !! path) as [[|children]|]; reflexivity.
Qed.

(** X12.  [get_folder] returns the [Path] of the folder, which then names a
    directory; a folder that is there is left as it is, and a second
    call changes nothing. *)
Theorem get_folder_idempotent (path : string) (p : pathlike) (fs fs' : filesystem) :
  get_folder path fs = (fs', Returns p) →
  p = PosixPath path ∧
  (∃ children, fs' !! path = Some (NDir children)) ∧
  (os_path_exists path fs = true → fs' = fs) ∧
  get_folder path fs' = (fs', Returns (PosixPath path)).
Proof.
  rewrite (get_folder_table path fs), (get_folder_table path fs').
  cbn [os_path_exists table_filesystem]. unfold table_exists. intros H.
  destruct (fs !! path) as [[|children]|] eqn:E; [discriminate H| |].
  - injection H as <- <-. rewrite E.
    split; [reflexivity|]. split; [eauto|]. split; reflexivity.
  - injection H as <- <-. rewrite lookup_insert_eq.
    split; [reflexivity|]. split; [eauto|]. split; [|reflexivity].
    intros Hex. apply bool_decide_eq_true_1 in Hex as [x Hx]. discriminate Hx.
Qed.

(** An instance of the statement, its hypothesis checked by computation. *)
Lemma get_folder_idempotent_witness :
  get_folder "out" fs_mixed = (<["out" := NDir []]> fs_mixed, Returns (PosixPath "out")) ∧
  PosixPath "out" = PosixPath "out" ∧
  (∃ children, (<["out" := NDir []]> fs_mixed) !! "out" = Some (NDir children)) ∧
  (os_path_exists "out" fs_mixed = true → <["out" := NDir []]> fs_mixed = fs_mixed) ∧
  get_folder "out" (<["out" := NDir []]> fs_mixed) =
    (<["out" := NDir []]> fs_mixed, Returns (PosixPath "out")).
Proof.
  assert (H : get_folder "out" fs_mixed =
              (<["out" := NDir []]> fs_mixed, Returns (PosixPath "out")))
    by reflexivity.
  split; [exact H|]. exact (get_folder_idempotent _ _ _ _ H).
Defined.

Lemma get_image_paths_existing (directory : string) (fs : filesystem)
    (children : list (string * bool)) :
  fs !! directory = Some (NDir children) →
  get_image_paths directory fs =
    (fs, Returns (map path (List.filter image_entry
                              (sorted_by_name (entries_of directory children))))).
Proof.
  intros E. unfold get_image_paths.
  cbn [os_path_exists os_scandir table_filesystem]. unfold table_exists.
  rewrite bool_decide_eq_true_2 by eauto. cbn [negb].
  unfold table_scandir. cbn [path_string]. rewrite E.
  fold (entries_of directory children).
  rewrite collect_images. reflexivity.
Qed.

Lemma get_image_paths_missing (directory : string) (fs : filesystem) :
  fs !! directory = None →
  get_image_paths directory fs = (<[directory := NDir []]> fs, Returns []).
Proof.
  intros E. unfold get_image_paths.
  cbn [os_path_exists os_scandir table_filesystem]. unfold table_exists.
  rewrite bool_decide_eq_false_2 by (intros [x Hx]; congruence). cbn [negb].
  rewrite get_folder_table, E. unfold table_scandir. cbn [path_string].
  rewrite lookup_insert_eq. reflexivity.
Qed.

Lemma get_image_paths_on_file (directory : string) (fs : filesystem) :
  fs !! directory = Some NFile →
  get_image_paths directory fs = (fs, Raises NotADirectoryError).
Proof.
  intros E. unfold get_image_paths.
  cbn [os_path_exists os_scandir table_filesystem]. unfold table_exists.
  rewrite bool_decide_eq_true_2 by eauto. cbn [negb].
  unfold table_scandir. cbn [path_string]. rewrite E. reflexivity.
Qed.

(** X13.  A second call of [get_image_paths] on the same directory returns the
    same list and changes nothing: the folder the first call may have
    created is there and is empty. *)
Theorem get_image_paths_stable (directory : string) (fs fs' : filesystem) (l : list string) :
  get_image_paths directory fs = (fs', Returns l) →
  get_image_paths directory fs' = (fs', Returns l).
Proof.
  destruct (fs !! directory) as [[|children]|] eqn:E.
  - rewrite (get_image_paths_on_file _ _ E). discriminate.
  - rewrite (get_image_paths_existing _ _ _ E). intros H.
    apply (f_equal fst) in H as Hfs. cbn [fst] in Hfs. subst fs'.
    rewrite <- H. apply get_image_paths_existing. exact E.
  - rewrite (get_image_paths_missing _ _ E). intros H.
    apply (f_equal fst) in H as Hfs. cbn [fst] in Hfs. subst fs'.
    rewrite <- H. apply (get_image_paths_existing directory _ []).
    apply lookup_insert_eq.
Qed.

(** An instance of the statement, its hypothesis checked by computation. *)
Lemma get_image_paths_stable_witness :
  get_image_paths "new" fs_mixed = (<["new" := NDir []]> fs_mixed, Returns []) ∧
  get_image_paths "new" (<["new" := NDir []]> fs_mixed) =
    (<["new" := NDir []]> fs_mixed, Returns []).
Proof.
  assert (H : get_image_paths "new" fs_mixed = (<["new" := NDir []]> fs_mixed, Returns []))
    by reflexivity.
  split; [exact H|]. exact (get_image_paths_stable _ _ _ _ H).
Defined.

(** *** Images and videos *)

(** Two endings of one string: one of them ends with the other. *)
Lemma append_suffix_cases (a b e1 e2 : string) :
  a +:+ e1 = b +:+ e2 → (∃ c, e1 = c +:+ e2) ∨ (∃ c, e2 = c +:+ e1).
Proof.
  revert b. induction a as [|x a IH]; intros b H.
  - rewrite append_nil in H. left. exists b. exact H.
  - destruct b as [|y b].
    + rewrite append_nil in H. right. exists (String x a). symmetry. exact H.
    + rewrite !append_cons in H. injection H as _ H. exact (IH b H).
Qed.

Lemma endswith_both (s e1 e2 : string) :
  endswith s e1 = true → endswith s e2 = true →
  endswith e1 e2 = true ∨ endswith e2 e1 = true.
Proof.
  intros H1 H2. apply endswith_spec in H1 as [a Ha], H2 as [b Hb].
  rewrite Ha in Hb. destruct (append_suffix_cases _ _ _ _ Hb) as [[c Hc]|[c Hc]].
  - left. apply endswith_spec. eauto.
  - right. apply endswith_spec. eauto.
Qed.

(** No image extension ends with a video extension, nor the reverse, so
    no name passes for both. *)
Lemma image_not_video (e : DirEntry) : image_entry e = true → video_entry e = false.
Proof.
  unfold image_entry, video_entry. intros Hi.
  apply existsb_exists in Hi as (i & Hi & Hend).
  destruct (existsb _ _video_extensions) eqn:Hv; [|reflexivity].
  apply existsb_exists in Hv as (v & Hv & Hendv). exfalso.
  assert (Htable : forallb (λ i, forallb (λ v, negb (endswith i v) && negb (endswith v i))
                                          _video_extensions) _image_extensions = true)
    by (vm_compute; reflexivity).
  rewrite forallb_forall in Htable. specialize (Htable i Hi).
  rewrite forallb_forall in Htable. specialize (Htable v Hv).
  apply andb_prop in Htable as [T1 T2]. apply negb_true_iff in T1, T2.
  destruct (endswith_both _ _ _ Hend Hendv); congruence.
Qed.

(** X14.  [get_image_paths] never lists a video: every path it returns is
    the path of an entry of the directory whose name has an image
    extension and no video extension. *)
Theorem get_image_paths_no_videos (directory p : string) (fs fs' : filesystem)
    (l : list string) :
  get_image_paths directory fs = (fs', Returns l) →
  p ∈ l →
  ∃ es e,
    os_scandir directory fs' = Returns es ∧
    e ∈ es ∧ path e = p ∧ image_entry e = true ∧ video_entry e = false.
Proof.
  destruct (fs !! directory) as [[|children]|] eqn:E.
  - rewrite (get_image_paths_on_file _ _ E). discriminate.
  - rewrite (get_image_paths_existing _ _ _ E). intros H Hp.
    apply (f_equal fst) in H as Hfs. cbn [fst] in Hfs. subst fs'.
    apply (f_equal snd) in H. cbn [snd] in H. injection H as <-.
    apply list_elem_of_fmap in Hp as (e & -> & He).
    apply list_elem_of_In, List.filter_In in He as [He Himg].
    apply list_elem_of_In in He. rewrite (sorted_by_name_perm _) in He.
    exists (entries_of directory children), e.
    split; [cbn [os_scandir table_filesystem]; unfold table_scandir; cbn [path_string];
            rewrite E; reflexivity|].
    split; [exact He|]. split; [reflexivity|]. split; [exact Himg|].
    exact (image_not_video e Himg).
  - rewrite (get_image_paths_missing _ _ E). intros H Hp.
    apply (f_equal snd) in H. cbn [snd] in H. injection H as <-.
    apply elem_of_nil in Hp. contradiction.
Qed.

(** An instance of the statement, its hypotheses checked by computation. *)
Lemma get_image_paths_no_videos_witness :
  get_image_paths "d" fs_mixed = (fs_mixed, Returns ["d/b.PNG"]) ∧
  "d/b.PNG" ∈ ["d/b.PNG"] ∧
  ∃ es e,
    os_scandir "d" fs_mixed = Returns es ∧
    e ∈ es ∧ path e = "d/b.PNG" ∧ image_entry e = true ∧ video_entry e = false.
Proof.
  assert (H1 : get_image_paths "d" fs_mixed = (fs_mixed, Returns ["d/b.PNG"]))
    by (vm_compute; reflexivity).
  assert (H2 : "d/b.PNG" ∈ ["d/b.PNG"]) by left.
  split; [exact H1|]. split; [exact H2|].
  exact (get_image_paths_no_videos _ _ _ _ _ H1 H2).
Defined.

(** ** set_system_verbosity *)

Lemma list_remove_head (item : warning_filter) (l : list warning_filter) :
  list_remove item (item :: l) = l.
Proof. cbn [list_remove]. rewrite decide_True by reflexivity. reflexivity. Qed.

Lemma list_remove_skip (item x : warning_filter) (l : list warning_filter) :
  x ≠ item → list_remove item (x :: l) = x :: list_remove item l.
Proof. intros H. cbn [list_remove]. rewrite decide_False by exact H. reflexivity. Qed.

Lemma list_remove_keeps (item x : warning_filter) (l : list warning_filter) :
  x ≠ item → x ∈ l → x ∈ list_remove item l.
Proof.
  intros Hne. induction l as [|y l IH]; intros Hin; [exact Hin|].
  cbn [list_remove]. destruct (decide (y = item)) as [->|Hy].
  - apply elem_of_cons in Hin as [->|Hin]; [contradiction|exact Hin].
  - apply elem_of_cons in Hin as [->|Hin]; [left|right; exact (IH Hin)].
Qed.

Lemma future_not_deprecation : ignore_future ≠ ignore_deprecation.
Proof. discriminate. Qed.

(** The two cases of the function. *)
Lemma set_system_verbosity_quiet (level : Z) (s : interpreter) :
  15 < level →
  set_system_verbosity level s =
    mkInterpreter (<["TF_CPP_MIN_LOG_LEVEL" := "2"]> (environ s))
      (ignore_deprecation :: ignore_future ::
         list_remove ignore_deprecation (list_remove ignore_future (filters s))).
Proof.
  intros H. unfold set_system_verbosity.
  assert (E : (15 <? level) = true) by lia. rewrite E. cbv zeta.
  change (negb (String.eqb "2" "0")) with true. cbv iota.
  cbn [fold_left]. unfold simplefilter, _add_filter. cbn [negb].
  fold ignore_future ignore_deprecation.
  rewrite (list_remove_skip _ _ _ future_not_deprecation). reflexivity.
Qed.

Lemma set_system_verbosity_verbose (level : Z) (s : interpreter) :
  level ≤ 15 →
  set_system_verbosity level s =
    mkInterpreter (<["TF_CPP_MIN_LOG_LEVEL" := "0"]> (environ s)) (filters s).
Proof.
  intros H. unfold set_system_verbosity.
  assert (E : (15 <? level) = false) by lia. rewrite E. reflexivity.
Qed.

(** X15.  Calling the function twice at one level is the same as calling it
    once: the two ignore entries are not stacked up. *)
Theorem set_system_verbosity_idempotent (level : Z) (s : interpreter) :
  set_system_verbosity level (set_system_verbosity level s) = set_system_verbosity level s.
Proof.
  destruct (Z_lt_le_dec 15 level) as [H|H].
  - rewrite (set_system_verbosity_quiet level s H).
    rewrite (set_system_verbosity_quiet level _ H). cbn [environ filters].
    rewrite insert_insert_eq.
    rewrite (list_remove_skip ignore_future ignore_deprecation)
      by (intros E; symmetry in E; exact (future_not_deprecation E)).
    rewrite list_remove_head, list_remove_head. reflexivity.
  - rewrite (set_system_verbosity_verbose level s H).
    rewrite (set_system_verbosity_verbose level _ H). cbn [environ filters].
    rewrite insert_insert_eq. reflexivity.
Qed.

(** X16.  The function silences but never restores: a call at a level above 15
    puts the two ignore entries in front of the filters; a later call at
    a lower level sets the variable back to 0 and leaves those entries
    in place.  No other variable of the environment is written, and no
    filter that was there is lost. *)
Theorem set_system_verbosity_never_restores (high low : Z) (s : interpreter) :
  15 < high → low ≤ 15 →
  let s1 := set_system_verbosity high s in
  let s2 := set_system_verbosity low s1 in
  environ s1 !! "TF_CPP_MIN_LOG_LEVEL" = Some "2" ∧
  environ s2 !! "TF_CPP_MIN_LOG_LEVEL" = Some "0" ∧
  filters s2 = filters s1 ∧
  (∃ rest, filters s2 = ignore_deprecation :: ignore_future :: rest) ∧
  (∀ f, f ∈ filters s → f ∈ filters s2) ∧
  (∀ k, k ≠ "TF_CPP_MIN_LOG_LEVEL" → environ s2 !! k = environ s !! k).
Proof.
  intros Hhigh Hlow s1 s2. subst s2 s1.
  rewrite (set_system_verbosity_verbose low _ Hlow).
  rewrite (set_system_verbosity_quiet high s Hhigh). cbn [environ filters].
  split; [apply lookup_insert_eq|]. split; [apply lookup_insert_eq|].
  split; [reflexivity|]. split; [eauto|]. split.
  - intros f Hf.
    destruct (decide (f = ignore_deprecation)) as [->|Hd]; [left|].
    destruct (decide (f = ignore_future)) as [->|Hf']; [right; left|].
    right; right. apply list_remove_keeps; [exact Hd|].
    apply list_remove_keeps; [exact Hf'|exact Hf].
  - intros k Hk. rewrite !lookup_insert_ne by congruence. reflexivity.
Qed.

(** An instance of the statement, its hypotheses checked by computation. *)
Lemma set_system_verbosity_never_restores_witness :
  15 < 20 ∧ 10 ≤ 15 ∧
  let s1 := set_system_verbosity 20 interpreter0 in
  let s2 := set_system_verbosity 10 s1 in
  environ s1 !! "TF_CPP_MIN_LOG_LEVEL" = Some "2" ∧
  environ s2 !! "TF_CPP_MIN_LOG_LEVEL" = Some "0" ∧
  filters s2 = filters s1 ∧
  (∃ rest, filters s2 = ignore_deprecation :: ignore_future :: rest) ∧
  (∀ f, f ∈ filters interpreter0 → f ∈ filters s2) ∧
  (∀ k, k ≠ "TF_CPP_MIN_LOG_LEVEL" → environ s2 !! k = environ interpreter0 !! k).
Proof.
  assert (H1 : 15 < 20) by lia. assert (H2 : 10 ≤ 15) by lia.
  split; [exact H1|]. split; [exact H2|].
  exact (set_system_verbosity_never_restores 20 10 interpreter0 H1 H2).
Defined.

(** The entry of [interpreter0] that was behind another one moves to the
    front instead of being entered twice. *)
Example set_system_verbosity_filters_example :
  filters (set_system_verbosity 20 interpreter0) =
    [ignore_deprecation; ignore_future; mkFilter "default" None "Warning" None 0].
Proof. vm_compute. reflexivity. Qed.
